(** * chess.c: position decoder, move interpreter and one-ply move selector

    A shallow embedding of [src/chess/src/chess.c].  The C functions
    [piece_value], [parse_fen], [evaluate], [find_piece], [apply_move] and
    [choose_move] are transcribed one by one, keeping their names, their
    control flow and the order of their tests.

    Conventions.
    - A C [char] is an [ascii]; [code c] is its value as an [int].  Every
      comparison of the source is against 7-bit literals, so the signedness of
      [char] is never observable (a byte above 127 fails each range test under
      both readings).
    - A C string is the [list ascii] of the bytes stored at the pointer; the
      terminating NUL is implicit at the end of the list, and an embedded NUL
      terminates the string as it does in C ([deref], [c_str]).
    - [char board[8][8]] is a list of rows, read with [bget] and written with
      [bset], which leave the board alone outside 0..7.  [find_piece],
      [evaluate] and [apply_move] index the array under a loop bound or a
      range test on both sides; the store of [parse_fen] is guarded from
      above only, and [fen_loop] checks each of its stores.
    - [int] arithmetic is on [Z].  Board indices stay within [-1, 8] and
      scores within [evaluate_bound], far from the limits of a 32-bit [int].
      The row and column counters of [parse_fen] grow by at most 8 per byte
      read: they stay below [INT_MAX] on strings of fewer than 2^28 bytes,
      and [fen_loop] follows them on the machine beyond that. *)

From Stdlib Require Import ZArith Ascii String Lia.
From stdpp Require Import base tactics option list list_numbers strings.

Local Open Scope char_scope.
Local Open Scope Z_scope.

(** ** Characters and C strings *)

Definition code (c : ascii) : Z := Z.of_N (N_of_ascii c).

Definition NUL : ascii := "000".

(** [ch == lit] on characters. *)
Definition ceq (a b : ascii) : bool := Ascii.eqb a b.

(** [lo <= ch && ch <= hi] for character literals [lo], [hi]. *)
Definition between (lo hi ch : ascii) : bool :=
  (code lo <=? code ch) && (code ch <=? code hi).

(** <ctype.h> in the C locale. *)
Definition isupper (c : ascii) : bool := between "A" "Z" c.
Definition islower (c : ascii) : bool := between "a" "z" c.
Definition toupper (c : ascii) : ascii :=
  if islower c then ascii_of_N (N_of_ascii c - 32) else c.
Definition tolower (c : ascii) : ascii :=
  if isupper c then ascii_of_N (N_of_ascii c + 32) else c.

(** [*p]: the byte under the cursor, NUL at the end of the string. *)
Definition deref (p : list ascii) : ascii := hd NUL p.

(** The bytes of a C string: everything before the first NUL. *)
Fixpoint c_str (s : list ascii) : list ascii :=
  match s with
  | [] => []
  | ch :: s' => if ceq ch NUL then [] else ch :: c_str s'
  end.

(** [strncpy(dst, src, n); dst[n] = 0]: at most [n] bytes of the string. *)
Definition strncpy (n : nat) (s : list ascii) : list ascii := take n (c_str s).

(** [buf[i]], reading the terminator past the end. *)
Definition char_at (buf : list ascii) (i : Z) : ascii :=
  if i <? 0 then NUL else nth (Z.to_nat i) buf NUL.

Definition strlen (buf : list ascii) : Z := Z.of_nat (length buf).

(** ** The board *)

Definition ROWS : Z := 8.
Definition COLS : Z := 8.

Abbreviation board := (list (list ascii)).

Definition board_wf (b : board) : Prop :=
  length b = 8%nat ∧ Forall (λ row, length row = 8%nat) b.

Definition in_grid (r c : Z) : bool :=
  (0 <=? r) && (r <? ROWS) && (0 <=? c) && (c <? COLS).

(** [board[r][c]] *)
Definition bget (b : board) (r c : Z) : ascii :=
  if in_grid r c then
    match b !! Z.to_nat r with
    | Some row => nth (Z.to_nat c) row "."
    | None => "."
    end
  else ".".

(** [board[r][c] = x] *)
Definition bset (b : board) (r c : Z) (x : ascii) : board :=
  if in_grid r c then alter (λ row, <[Z.to_nat c := x]> row) (Z.to_nat r) b
  else b.

Definition empty_board : board := replicate 8 (replicate 8 ".").

(** ** piece_value *)

Definition VAL_PAWN : Z := 100.
Definition VAL_KNIGHT : Z := 320.
Definition VAL_BISHOP : Z := 330.
Definition VAL_ROOK : Z := 500.
Definition VAL_QUEEN : Z := 900.
Definition VAL_KING : Z := 20000.

Definition piece_value (piece : ascii) : Z :=
  match piece with
  | "P" => VAL_PAWN
  | "N" => VAL_KNIGHT
  | "B" => VAL_BISHOP
  | "R" => VAL_ROOK
  | "Q" => VAL_QUEEN
  | "K" => VAL_KING
  | "p" => - VAL_PAWN
  | "n" => - VAL_KNIGHT
  | "b" => - VAL_BISHOP
  | "r" => - VAL_ROOK
  | "q" => - VAL_QUEEN
  | "k" => - VAL_KING
  | _ => 0
  end.

(** ** parse_fen *)

(** The placement loop of [parse_fen], which runs until the cursor reads NUL
    or a space, from the cursor [p]
    with the current [row], [col] and board; returns the board and the cursor
    where the loop stopped. *)
Fixpoint fen_placement (p : list ascii) (row col : Z) (b : board)
  : board * list ascii :=
  match p with
  | [] => (b, p)
  | ch :: p' =>
      if ceq ch NUL || ceq ch " " then (b, p)
      else if ceq ch "/" then fen_placement p' (row + 1) 0 b
      else if between "1" "8" ch then
        fen_placement p' row (col + (code ch - code "0")) b
      else
        fen_placement p' row (col + 1)
          (if (row <? ROWS) && (col <? COLS) then bset b row col ch else b)
  end.

(** The result of [parse_fen]: its return value, the board it filled and the
    side it stored through [side]. *)
Record fen_result := FenResult {
  fen_ok : bool;
  fen_board : board;
  fen_side : ascii
}.

Definition parse_fen (fen : string) : fen_result :=
  let '(b, p) := fen_placement (list_ascii_of_string fen) 0 0 empty_board in
  let p := if ceq (deref p) " " then tail p else p in
  FenResult true b (deref p).

(** ** evaluate *)

Definition centre_bonus : list (list Z) :=
  [ [0; 0; 0; 0; 0; 0; 0; 0];
    [0; 0; 0; 0; 0; 0; 0; 0];
    [0; 0; 1; 2; 2; 1; 0; 0];
    [0; 0; 2; 3; 3; 2; 0; 0];
    [0; 0; 2; 3; 3; 2; 0; 0];
    [0; 0; 1; 2; 2; 1; 0; 0];
    [0; 0; 0; 0; 0; 0; 0; 0];
    [0; 0; 0; 0; 0; 0; 0; 0] ].

(** [centre_bonus[row][col]] *)
Definition centre_bonus_at (row col : Z) : Z :=
  nth (Z.to_nat col) (nth (Z.to_nat row) centre_bonus []) 0.

(** The body of the inner loop of [evaluate]: the score after the square
    [(row, col)] has been visited. *)
Definition evaluate_square (b : board) (score row col : Z) : Z :=
  let piece := bget b row col in
  if ceq piece "." then score
  else
    let score := score + piece_value piece in
    let score :=
      if ceq piece "N" || ceq piece "B" then score + centre_bonus_at row col * 5
      else if ceq piece "n" || ceq piece "b" then score - centre_bonus_at row col * 5
      else score in
    if ceq piece "P" then score + (7 - row) * 5
    else if ceq piece "p" then score - row * 5
    else score.

Definition evaluate (b : board) : Z :=
  foldl (λ score row,
           foldl (λ score col, evaluate_square b score row col)
                 score (seqZ 0 COLS))
        0 (seqZ 0 ROWS).

(** ** find_piece *)

(** A [for] loop that is left by [goto found]: the first iteration whose body
    jumps decides the result. *)
Fixpoint loop_until {A B} (body : A → option B) (l : list A) : option B :=
  match l with
  | [] => None
  | x :: l' => match body x with Some y => Some y | None => loop_until body l' end
  end.

Definition knight_dr : list Z := [-2; -2; -1; -1; 1; 1; 2; 2].
Definition knight_dc : list Z := [-1; 1; -2; 2; -2; 2; -1; 1].
Definition rdr : list Z := [-1; 1; 0; 0].
Definition rdc : list Z := [0; 0; -1; 1].
Definition qdr : list Z := [-1; -1; -1; 0; 0; 1; 1; 1].
Definition qdc : list Z := [-1; 0; 1; -1; 1; -1; 0; 1].

(** The bishop's two nested [for (d = -1; d <= 1; d += 2)] loops. *)
Definition bishop_dirs : list (Z * Z) := [(-1, -1); (-1, 1); (1, -1); (1, 1)].

(** The inner [while] loop of the sliding pieces, entered at [(sr, sc)] and
    stepping by [(dr, dc)]: [true] when it jumps to [found], [false] when it
    ends (off the board, or blocked).  Eight iterations always suffice
    ([slide_fuel]). *)
Fixpoint slide (fuel : nat) (b : board) (dest_row dest_col dr dc sr sc : Z)
  : bool :=
  match fuel with
  | O => false
  | S fuel' =>
      if (0 <=? sr) && (sr <? ROWS) && (0 <=? sc) && (sc <? COLS) then
        if (sr =? dest_row) && (sc =? dest_col) then true
        else if negb (ceq (bget b sr sc) ".") then false
        else slide fuel' b dest_row dest_col dr dc (sr + dr) (sc + dc)
      else false
  end.

Definition slide_dirs (b : board) (dest_row dest_col r c : Z)
    (dirs : list (Z * Z)) : bool :=
  existsb (λ '(dr, dc), slide 8 b dest_row dest_col dr dc (r + dr) (c + dc))
          dirs.

(** The [switch] of [find_piece]: does the piece on [(r, c)] reach the
    destination ([true] = [goto found], [false] = [break]). *)
Definition reaches (b : board) (piece : ascii) (dest_row dest_col r c : Z)
  : bool :=
  match toupper piece with
  | "P" =>
      if isupper piece then
        (if (c =? dest_col) && ceq (bget b dest_row dest_col) "." then
           (r - 1 =? dest_row)
           || ((r =? 6) && (dest_row =? 4) && ceq (bget b 5 c) ".")
         else false)
        || ((r - 1 =? dest_row)
            && ((c - 1 =? dest_col) || (c + 1 =? dest_col)))
      else
        (if (c =? dest_col) && ceq (bget b dest_row dest_col) "." then
           (r + 1 =? dest_row)
           || ((r =? 1) && (dest_row =? 3) && ceq (bget b 2 c) ".")
         else false)
        || ((r + 1 =? dest_row)
            && ((c - 1 =? dest_col) || (c + 1 =? dest_col)))
  | "N" =>
      existsb (λ '(dr, dc), (r + dr =? dest_row) && (c + dc =? dest_col))
              (zip knight_dr knight_dc)
  | "B" => slide_dirs b dest_row dest_col r c bishop_dirs
  | "R" => slide_dirs b dest_row dest_col r c (zip rdr rdc)
  | "Q" => slide_dirs b dest_row dest_col r c (zip qdr qdc)
  | "K" => (Z.abs (r - dest_row) <=? 1) && (Z.abs (c - dest_col) <=? 1)
  | _ => false
  end.

(** The body of the double loop for the square [(r, c)]: the three [continue]
    tests, then the [switch]. *)
Definition candidate (b : board) (piece : ascii)
    (dest_row dest_col src_row_hint src_col_hint r c : Z) : bool :=
  if negb (ceq (bget b r c) piece) then false
  else if (src_row_hint >=? 0) && negb (r =? src_row_hint) then false
  else if (src_col_hint >=? 0) && negb (c =? src_col_hint) then false
  else reaches b piece dest_row dest_col r c.

(** [Some (out_row, out_col)] when the function returns 1, [None] when it
    returns 0. *)
Definition find_piece (b : board) (piece : ascii)
    (dest_row dest_col src_row_hint src_col_hint : Z) : option (Z * Z) :=
  loop_until (λ r,
    loop_until (λ c,
      if candidate b piece dest_row dest_col src_row_hint src_col_hint r c
      then Some (r, c) else None)
      (seqZ 0 COLS))
    (seqZ 0 ROWS).

(** ** apply_move *)

Definition MAX_MOVES : nat := 256.
Definition MAX_MOVE_LEN : nat := 16.

(** [strcmp(s, lit) == 0] *)
Definition streq (s : list ascii) (lit : string) : bool :=
  bool_decide (c_str s = list_ascii_of_string lit).

(** The suffix-stripping [while] loop; each iteration shortens the buffer, so
    [length buf] iterations suffice ([strip_check_done]). *)
Fixpoint strip_check (fuel : nat) (buf : list ascii) : list ascii :=
  match fuel with
  | O => buf
  | S fuel' =>
      let blen := strlen buf in
      if (blen >? 0)
         && (ceq (char_at buf (blen - 1)) "+" || ceq (char_at buf (blen - 1)) "#")
      then strip_check fuel' (take (Z.to_nat (blen - 1)) buf)
      else buf
  end.

(** The disambiguation loop over the characters between the piece letter and
    the destination; the state is [(src_row_hint, src_col_hint)]. *)
Definition parse_hints (mid : list ascii) : Z * Z :=
  foldl (λ '(src_row_hint, src_col_hint) m,
           if ceq m "x" then (src_row_hint, src_col_hint)
           else if between "a" "h" m then (src_row_hint, code m - code "a")
           else if between "1" "8" m then (code "8" - code m, src_col_hint)
           else (src_row_hint, src_col_hint))
        (-1, -1) mid.

Definition castle (b : board) (side : ascii) (rook_from king_to rook_to : Z)
  : board :=
  let row := if ceq side "w" then 7 else 0 in
  let b := bset b row 4 "." in
  let b := bset b row rook_from "." in
  let b := bset b row king_to (if ceq side "w" then "K" else "k") in
  bset b row rook_to (if ceq side "w" then "R" else "r").

(** What [apply_move] has read from a non-castling token when it calls
    [find_piece]. *)
Record move_fields := MoveFields {
  mv_piece : ascii;
  mv_promote_to : ascii;      (* NUL when the token has no promotion suffix *)
  mv_dest_row : Z;
  mv_dest_col : Z;
  mv_src_row_hint : Z;        (* -1 when unknown *)
  mv_src_col_hint : Z
}.

(** The part of [apply_move] between the castling tests and the call of
    [find_piece]; it reads the token only.  [None] stands for its two
    [return 0] (token too short, destination off the board). *)
Definition parse_move (move : list ascii) (side : ascii) : option move_fields :=
  let buf := strncpy (MAX_MOVE_LEN - 1) move in
  let buf := strip_check (length buf) buf in
  let len := strlen buf in
  let '(promote_to, buf, len) :=
    if (len >=? 4) && ceq (char_at buf (len - 2)) "=" then
      (char_at buf (len - 1), take (Z.to_nat (len - 2)) buf, len - 2)
    else (NUL, buf, len) in
  let p0 := deref buf in
  let '(piece, p, len) :=
    if isupper p0 && negb (ceq p0 "O")
       && (ceq p0 "N" || ceq p0 "B" || ceq p0 "R" || ceq p0 "Q" || ceq p0 "K")
    then (if ceq side "w" then p0 else tolower p0, 1%nat, len - 1)
    else (if ceq side "w" then "P" else "p", 0%nat, len) in
  if len <? 2 then None
  else
    let dest_col := code (char_at buf (strlen buf - 2)) - code "a" in
    let dest_row := code "8" - code (char_at buf (strlen buf - 1)) in
    if (dest_row <? 0) || (dest_row >=? ROWS)
       || (dest_col <? 0) || (dest_col >=? COLS)
    then None
    else
      let '(src_row_hint, src_col_hint) :=
        parse_hints (drop p (take (Z.to_nat (strlen buf - 2)) buf)) in
      Some (MoveFields piece promote_to dest_row dest_col
                       src_row_hint src_col_hint).

(** The end of [apply_move], once [find_piece] has returned the source. *)
Definition perform_move (b : board) (side : ascii) (m : move_fields)
    (src_row src_col : Z) : board :=
  let b :=
    if ceq (toupper (mv_piece m)) "P" && negb (src_col =? mv_dest_col m)
       && ceq (bget b (mv_dest_row m) (mv_dest_col m)) "."
    then bset b src_row (mv_dest_col m) "." else b in
  let b := bset b src_row src_col "." in
  if negb (ceq (mv_promote_to m) NUL) then
    bset b (mv_dest_row m) (mv_dest_col m)
         (if ceq side "w" then toupper (mv_promote_to m)
          else tolower (mv_promote_to m))
  else bset b (mv_dest_row m) (mv_dest_col m) (mv_piece m).

Definition is_castle_short (move : list ascii) : bool :=
  streq move "O-O" || streq move "O-O+" || streq move "O-O#".
Definition is_castle_long (move : list ascii) : bool :=
  streq move "O-O-O" || streq move "O-O-O+" || streq move "O-O-O#".

(** The return value of [apply_move] and the board as the call leaves it. *)
Definition apply_move (b : board) (move : string) (side : ascii)
  : bool * board :=
  let move := c_str (list_ascii_of_string move) in
  if is_castle_short move then (true, castle b side 7 6 5)
  else if is_castle_long move then (true, castle b side 0 2 3)
  else
    match parse_move move side with
    | None => (false, b)
    | Some m =>
        match find_piece b (mv_piece m) (mv_dest_row m) (mv_dest_col m)
                         (mv_src_row_hint m) (mv_src_col_hint m) with
        | None => (false, b)
        | Some (src_row, src_col) =>
            (true, perform_move b side m src_row src_col)
        end
    end.

(** ** choose_move *)

(** The [strtok(..., " ")] loop: the maximal runs of non-space bytes, in
    order; [cur] is the token being read, reversed. *)
Fixpoint strtok_all (s : list ascii) (cur : list ascii) : list (list ascii) :=
  match s with
  | [] => match cur with [] => [] | _ => [rev cur] end
  | ch :: s' =>
      if ceq ch " " then
        match cur with
        | [] => strtok_all s' []
        | _ => rev cur :: strtok_all s' []
        end
      else strtok_all s' (ch :: cur)
  end.

(** [move_list[0 .. num_moves-1]] after the tokenising loop. *)
Definition move_list (moves : string) : list string :=
  let moves_copy := strncpy 4095 (list_ascii_of_string moves) in
  take MAX_MOVES
       (map (λ tok, string_of_list_ascii (strncpy (MAX_MOVE_LEN - 1) tok))
            (strtok_all moves_copy [])).

(** The candidate loop from index [i] on, over the remaining tokens. *)
Fixpoint choose_loop (b : board) (side : ascii) (toks : list string)
    (i best_idx best_score : Z) : Z :=
  match toks with
  | [] => best_idx
  | tok :: toks' =>
      let '(ok, trial) := apply_move b tok side in
      if negb ok then choose_loop b side toks' (i + 1) best_idx best_score
      else
        let score := evaluate trial in
        if ceq side "w" then
          if score >? best_score
          then choose_loop b side toks' (i + 1) i score
          else choose_loop b side toks' (i + 1) best_idx best_score
        else
          if score <? best_score
          then choose_loop b side toks' (i + 1) i score
          else choose_loop b side toks' (i + 1) best_idx best_score
  end.

Definition sentinel (side : ascii) : Z :=
  if ceq side "w" then -9999999 else 9999999.

(** The selection once the position is decoded and the list is split. *)
Definition select_move (b : board) (side : ascii) (toks : list string) : Z :=
  if Z.of_nat (length toks) =? 0 then 0
  else choose_loop b side toks 0 0 (sentinel side).

Definition choose_move (fen moves : string) (timeout : Z) : Z :=
  let pos := parse_fen fen in
  select_move (fen_board pos) (fen_side pos) (move_list moves).

(** ** parse_fen on the machine *)


Definition wrap (z : Z) : Z := (z + 2147483648) mod 4294967296 - 2147483648.

(** [board[row][col] = x] *)
Definition store (b : board) (row col : Z) (x : ascii) : option board :=
  if in_grid row col then Some (bset b row col x) else None.

(** The [while] loop of [parse_fen], lines 94-109, branch for branch. *)
Fixpoint fen_loop (p : list ascii) (row col : Z) (b : board)
  : option (board * list ascii) :=
  match p with
  | [] => Some (b, p)
  | ch :: p' =>
      if ceq ch NUL || ceq ch " " then Some (b, p)
      else if ceq ch "/" then fen_loop p' (wrap (row + 1)) 0 b
      else if between "1" "8" ch then
        fen_loop p' row (wrap (col + (code ch - code "0"))) b
      else if (row <? ROWS) && (col <? COLS) then
        match store b row col ch with
        | Some b' => fen_loop p' row (wrap (col + 1)) b'
        | None => None
        end
      else fen_loop p' row (wrap (col + 1)) b
  end.


(** ** The specification's reading of a position *)

(** Placing listed characters on listed cells, one after the other. *)
Definition do_writes (b : board) (ws : list (Z * Z * ascii)) : board :=
  foldl (λ b '(r, c, x), bset b r c x) b ws.

Inductive colour := White | Black.
Inductive kind := Pawn | Knight | Bishop | Rook | Queen | King.

(** Colour from the case of the letter, kind from the letter. *)
Definition kind_of_char (ch : ascii) : option kind :=
  match toupper ch with
  | "P" => Some Pawn
  | "N" => Some Knight
  | "B" => Some Bishop
  | "R" => Some Rook
  | "Q" => Some Queen
  | "K" => Some King
  | _ => None
  end.

Definition colour_of_char (ch : ascii) : colour :=
  if isupper ch then White else Black.

Definition piece_of_char (ch : ascii) : option (colour * kind) :=
  match kind_of_char ch with
  | Some k => Some (colour_of_char ch, k)
  | None => None
  end.

Definition is_piece_letter (ch : ascii) : bool :=
  existsb (ceq ch) (list_ascii_of_string "PNBRQKpnbrqk").

(** *** Static evaluation, as the specification words it *)

Definition material (k : kind) : Z :=
  match k with
  | Pawn => 100 | Knight => 320 | Bishop => 330
  | Rook => 500 | Queen => 900 | King => 20000
  end.

Definition signed (cl : colour) (v : Z) : Z :=
  match cl with White => v | Black => - v end.

Definition is_minor (k : kind) : bool :=
  match k with Knight | Bishop => true | _ => false end.

Definition pawn_advance (cl : colour) (row : Z) : Z :=
  match cl with White => 5 * (7 - row) | Black => - (5 * row) end.

(** Contribution of one occupied square. *)
Definition square_score (row col : Z) (pc : colour * kind) : Z :=
  let '(cl, k) := pc in
  signed cl (material k)
  + (if is_minor k then signed cl (5 * centre_bonus_at row col) else 0)
  + (match k with Pawn => pawn_advance cl row | _ => 0 end).

(** The 64 squares in row-major order. *)
Definition squares : list (Z * Z) :=
  r ← seqZ 0 ROWS; c ← seqZ 0 COLS; [(r, c)].

Definition occupied (b : board) (sq : Z * Z) : bool :=
  negb (ceq (bget b sq.1 sq.2) ".").

Definition Zsum (l : list Z) : Z := foldr Z.add 0 l.

Definition spec_evaluate (b : board) : Z :=
  Zsum (map (λ sq, match piece_of_char (bget b sq.1 sq.2) with
                   | Some pc => square_score sq.1 sq.2 pc
                   | None => 0
                   end)
            (filter (λ sq, occupied b sq = true) squares)).

(** *** FEN placement, enumerated directly *)

(** The placement field: the bytes before the first space (or the end). *)
Fixpoint placement_field (p : list ascii) : list ascii :=
  match p with
  | [] => []
  | ch :: p' => if ceq ch NUL || ceq ch " " then [] else ch :: placement_field p'
  end.

(** Direct enumeration of a placement field from the cell [(row, col)]. *)
Fixpoint fen_enumerate (p : list ascii) (row col : Z) : list (Z * Z * ascii) :=
  match p with
  | [] => []
  | ch :: p' =>
      if ceq ch "/" then fen_enumerate p' (row + 1) 0
      else if between "1" "8" ch then
        fen_enumerate p' row (col + (code ch - code "0"))
      else (row, col, ch) :: fen_enumerate p' row (col + 1)
  end.

(** A valid placement field: eight ranks separated by '/', each made of
    piece letters and digits 1-8 that fill exactly eight cells. *)
Fixpoint valid_placement_from (p : list ascii) (row col : Z) : bool :=
  match p with
  | [] => (row =? 7) && (col =? 8)
  | ch :: p' =>
      if ceq ch "/" then
        (col =? 8) && (row <? 7) && valid_placement_from p' (row + 1) 0
      else if between "1" "8" ch then
        (col + (code ch - code "0") <=? 8)
        && valid_placement_from p' row (col + (code ch - code "0"))
      else
        is_piece_letter ch && (col <? 8) && valid_placement_from p' row (col + 1)
  end.

Definition valid_placement (p : list ascii) : bool := valid_placement_from p 0 0.

(** *** Squares in scan order *)

(** [(r', c')] comes before [(r, c)] in row-major order. *)
Definition before (r' c' r c : Z) : Prop := r' < r ∨ (r' = r ∧ c' < c).

(** Chebyshev distance between two squares. *)
Definition chebyshev (r c r' c' : Z) : Z := Z.max (Z.abs (r - r')) (Z.abs (c - c')).

(** *** Candidates and their scores *)

(** The score [choose_move] compares for a token: the evaluation of the trial
    board when the token applies, nothing when it does not. *)
Definition token_score (b : board) (side : ascii) (tok : string) : option Z :=
  if (apply_move b tok side).1 then Some (evaluate (apply_move b tok side).2)
  else None.

(** [s1] is strictly better than [s2] for the side to move: greater for 'w',
    smaller otherwise. *)
Definition better (side : ascii) (s1 s2 : Z) : bool :=
  if ceq side "w" then s1 >? s2 else s1 <? s2.

(** *** The en-passant step, as the specification words it

    For one call of [apply_move]: when the token is read as a pawn move whose
    source is on another file than the destination and the destination is
    empty, the source and the square beside it (source rank, destination
    file) are cleared and the moving pawn stands on the destination. *)
Definition en_passant_places_pawn (b : board) (move : string) (side : ascii)
  : Prop :=
  ∀ m src_row src_col,
    parse_move (c_str (list_ascii_of_string move)) side = Some m →
    toupper (mv_piece m) = "P" →
    find_piece b (mv_piece m) (mv_dest_row m) (mv_dest_col m)
               (mv_src_row_hint m) (mv_src_col_hint m)
      = Some (src_row, src_col) →
    src_col ≠ mv_dest_col m →
    bget b (mv_dest_row m) (mv_dest_col m) = "." →
    let b' := (apply_move b move side).2 in
    (apply_move b move side).1 = true
    ∧ bget b' src_row src_col = "."
    ∧ bget b' src_row (mv_dest_col m) = "."
    ∧ bget b' (mv_dest_row m) (mv_dest_col m) = mv_piece m.

(** ** Further notions used to state properties of the code *)

(** What the character [ch] standing on [(row, col)] adds to the score. *)
Definition cell_score (row col : Z) (ch : ascii) : Z :=
  if ceq ch "." then 0
  else match piece_of_char ch with
       | Some pc => square_score row col pc
       | None => 0
       end.

(** The same piece in the other colour. *)
Definition swap_case (ch : ascii) : ascii :=
  if isupper ch then tolower ch else if islower ch then toupper ch else ch.

(** The position seen from the other side: ranks reversed, colours
    exchanged. *)
Definition mirror (b : board) : board := map (map swap_case) (reverse b).

(** The squares strictly between [(r, c)] and the destination, on the
    straight line from the one to the other, are all empty. *)
Definition path_clear (b : board) (r c dest_row dest_col : Z) : Prop :=
  ∀ j, 0 < j < chebyshev r c dest_row dest_col →
       bget b (r + j * Z.sgn (dest_row - r)) (c + j * Z.sgn (dest_col - c)) = ".".

(** The part of [parse_move] that follows the removal of the suffixes: the
    fields read from the buffer [buf], the promotion letter being known. *)
Definition parse_fields (promote_to : ascii) (buf : list ascii) (side : ascii)
  : option move_fields :=
  let len := strlen buf in
  let p0 := deref buf in
  let '(piece, p, len) :=
    if isupper p0 && negb (ceq p0 "O")
       && (ceq p0 "N" || ceq p0 "B" || ceq p0 "R" || ceq p0 "Q" || ceq p0 "K")
    then (if ceq side "w" then p0 else tolower p0, 1%nat, len - 1)
    else (if ceq side "w" then "P" else "p", 0%nat, len) in
  if len <? 2 then None
  else
    let dest_col := code (char_at buf (strlen buf - 2)) - code "a" in
    let dest_row := code "8" - code (char_at buf (strlen buf - 1)) in
    if (dest_row <? 0) || (dest_row >=? ROWS)
       || (dest_col <? 0) || (dest_col >=? COLS)
    then None
    else
      let '(src_row_hint, src_col_hint) :=
        parse_hints (drop p (take (Z.to_nat (strlen buf - 2)) buf)) in
      Some (MoveFields piece promote_to dest_row dest_col
                       src_row_hint src_col_hint).

(** The same fields with another promotion letter. *)
Definition with_promotion (x : ascii) (m : move_fields) : move_fields :=
  MoveFields (mv_piece m) x (mv_dest_row m) (mv_dest_col m)
             (mv_src_row_hint m) (mv_src_col_hint m).

(** ** The movement rules, as the specification words them *)

(** One square ahead, for a pawn of the given colour. *)
Definition ahead (cl : colour) (r : Z) : Z :=
  match cl with White => r - 1 | Black => r + 1 end.

Definition starting_rank (cl : colour) : Z :=
  match cl with White => 6 | Black => 1 end.

(** Non-capture: same file, destination empty, one square ahead or two from
    the starting rank over an empty square.  Capture: one square diagonally
    ahead, whatever stands on the destination. *)
Definition pawn_rule (b : board) (cl : colour) (r c dest_row dest_col : Z)
  : Prop :=
  (c = dest_col ∧ bget b dest_row dest_col = "."
   ∧ (ahead cl r = dest_row
      ∨ (r = starting_rank cl ∧ ahead cl (ahead cl r) = dest_row
         ∧ bget b (ahead cl r) c = ".")))
  ∨ (ahead cl r = dest_row ∧ Z.abs (c - dest_col) = 1).

Definition knight_rule (r c dest_row dest_col : Z) : Prop :=
  (Z.abs (r - dest_row) = 1 ∧ Z.abs (c - dest_col) = 2)
  ∨ (Z.abs (r - dest_row) = 2 ∧ Z.abs (c - dest_col) = 1).

(** Along a rank or a file, with no occupied square strictly between. *)
Definition rook_rule (b : board) (r c dest_row dest_col : Z) : Prop :=
  (r = dest_row ∨ c = dest_col) ∧ (r, c) ≠ (dest_row, dest_col)
  ∧ path_clear b r c dest_row dest_col.

(** Along a diagonal, with no occupied square strictly between. *)
Definition bishop_rule (b : board) (r c dest_row dest_col : Z) : Prop :=
  Z.abs (r - dest_row) = Z.abs (c - dest_col)
  ∧ (r, c) ≠ (dest_row, dest_col)
  ∧ path_clear b r c dest_row dest_col.

(** One of the 8 adjacent squares. *)
Definition king_rule (r c dest_row dest_col : Z) : Prop :=
  chebyshev r c dest_row dest_col = 1.

Definition movement_rule (b : board) (cl : colour) (k : kind)
    (r c dest_row dest_col : Z) : Prop :=
  match k with
  | Pawn => pawn_rule b cl r c dest_row dest_col
  | Knight => knight_rule r c dest_row dest_col
  | Bishop => bishop_rule b r c dest_row dest_col
  | Rook => rook_rule b r c dest_row dest_col
  | Queen => rook_rule b r c dest_row dest_col
             ∨ bishop_rule b r c dest_row dest_col
  | King => king_rule r c dest_row dest_col
  end.

(** * Properties *)

(** ** Reading and writing the board *)

Lemma in_grid_spec r c : in_grid r c = true ↔ 0 ≤ r < 8 ∧ 0 ≤ c < 8.
Proof. unfold in_grid, ROWS, COLS. lia. Qed.

Lemma empty_board_wf : board_wf empty_board.
Proof. split; [reflexivity | repeat constructor]. Qed.

Lemma bset_wf b r c x : board_wf b → board_wf (bset b r c x).
Proof.
  intros [Hlen Hrows]. unfold bset. destruct (in_grid r c); [|by split].
  split; [by rewrite length_alter|].
  apply Forall_alter; [done|]. intros row _ Hrow. by rewrite length_insert.
Qed.

Lemma bget_bset_eq b r c x :
  board_wf b → in_grid r c = true → bget (bset b r c x) r c = x.
Proof.
  intros [Hlen Hrows] Hin. unfold bget, bset. rewrite Hin.
  apply in_grid_spec in Hin.
  destruct (lookup_lt_is_Some_2 b (Z.to_nat r)) as [row Hrow]; [lia|].
  rewrite list_lookup_alter, decide_True, Hrow by done. simpl.
  rewrite nth_lookup, list_lookup_insert_eq; [done|].
  rewrite Forall_lookup in Hrows. rewrite (Hrows _ _ Hrow). lia.
Qed.

Lemma bget_bset_ne b r c r' c' x :
  (r, c) ≠ (r', c') → bget (bset b r c x) r' c' = bget b r' c'.
Proof.
  intros Hne. unfold bget, bset.
  destruct (in_grid r' c') eqn:Hin'; [|done].
  destruct (in_grid r c) eqn:Hin; [|done].
  apply in_grid_spec in Hin, Hin'.
  rewrite list_lookup_alter. case_decide as Hr; [|done].
  assert (r = r') as <- by lia.
  destruct (b !! Z.to_nat r) as [row|]; [simpl|done].
  rewrite !nth_lookup, list_lookup_insert_ne; [done|].
  intros Hc. apply Hne. f_equal. lia.
Qed.

Lemma bget_in_grid b r c : bget b r c ≠ "." → in_grid r c = true.
Proof. unfold bget. by destruct (in_grid r c). Qed.

Ltac board_wf_tac := repeat apply bset_wf; assumption.

(** Reads of a board built by a chain of [bset]: the last write to the cell
    wins, writes to other cells are skipped. *)
Ltac grid_simpl :=
  repeat first
    [ rewrite bget_bset_eq
        by first [board_wf_tac | reflexivity | apply in_grid_spec; lia]
    | rewrite bget_bset_ne
        by (let E := fresh in intros E; injection E; intros;
            first [lia | congruence]) ].

(** ** Castling *)

Lemma apply_move_castle_short b move side :
  move ∈ ["O-O"; "O-O+"; "O-O#"]%string →
  apply_move b move side = (true, castle b side 7 6 5).
Proof.
  intros H. repeat (apply elem_of_cons in H as [->|H]); try reflexivity.
  by apply elem_of_nil in H.
Qed.

Lemma apply_move_castle_long b move side :
  move ∈ ["O-O-O"; "O-O-O+"; "O-O-O#"]%string →
  apply_move b move side = (true, castle b side 0 2 3).
Proof.
  intros H. repeat (apply elem_of_cons in H as [->|H]); try reflexivity.
  by apply elem_of_nil in H.
Qed.

Lemma castle_cells b side rook_from king_to rook_to :
  board_wf b →
  0 ≤ rook_from < 8 → 0 ≤ king_to < 8 → 0 ≤ rook_to < 8 →
  rook_from ≠ king_to → rook_from ≠ rook_to → king_to ≠ rook_to →
  rook_from ≠ 4 → king_to ≠ 4 → rook_to ≠ 4 →
  let row := if ceq side "w" then 7 else 0 in
  let b' := castle b side rook_from king_to rook_to in
  board_wf b'
  ∧ bget b' row 4 = "."
  ∧ bget b' row rook_from = "."
  ∧ bget b' row king_to = (if ceq side "w" then "K" else "k")
  ∧ bget b' row rook_to = (if ceq side "w" then "R" else "r")
  ∧ ∀ r c, ¬ (r = row ∧ (c = 4 ∨ c = rook_from ∨ c = king_to ∨ c = rook_to)) →
           bget b' r c = bget b r c.
Proof.
  intros Hwf ? ? ? ? ? ? ? ? ? row b'. subst row b'. unfold castle.
  destruct (ceq side "w");
    (split; [board_wf_tac|]); repeat split; grid_simpl; try done;
    intros r c Hrc; grid_simpl; done.
Qed.

(** C10.  A castling token ("O-O" or "O-O-O", bare or with one '+' or '#')
    always succeeds, whatever the board holds: on the back rank of the side
    (row 7 for 'w', row 0 otherwise) the king's home square (file e) and the
    rook's home square (file h or a) are cleared, the side's king and rook are
    written to files g and f (kingside) or c and d (queenside), and every
    other cell keeps its content. *)
Theorem apply_move_castling b move side :
  board_wf b →
  let short := bool_decide (move ∈ ["O-O"; "O-O+"; "O-O#"]%string) in
  let long := bool_decide (move ∈ ["O-O-O"; "O-O-O+"; "O-O-O#"]%string) in
  short || long = true →
  let row := if ceq side "w" then 7 else 0 in
  let rook_from := if short then 7 else 0 in
  let king_to := if short then 6 else 2 in
  let rook_to := if short then 5 else 3 in
  let b' := (apply_move b move side).2 in
  (apply_move b move side).1 = true
  ∧ board_wf b'
  ∧ bget b' row 4 = "."
  ∧ bget b' row rook_from = "."
  ∧ bget b' row king_to = (if ceq side "w" then "K" else "k")
  ∧ bget b' row rook_to = (if ceq side "w" then "R" else "r")
  ∧ ∀ r c, ¬ (r = row ∧ (c = 4 ∨ c = rook_from ∨ c = king_to ∨ c = rook_to)) →
           bget b' r c = bget b r c.
Proof.
  intros Hwf short long Hcastle row rook_from king_to rook_to b'.
  subst rook_from king_to rook_to b'. subst short long.
  case_bool_decide as Hs.
  - rewrite (apply_move_castle_short _ _ _ Hs). simpl.
    split; [done|]. apply castle_cells; (done || lia).
  - case_bool_decide as Hl; [|done].
    rewrite (apply_move_castle_long _ _ _ Hl). simpl.
    split; [done|]. apply castle_cells; (done || lia).
Qed.

(** Castling for Black on an empty board: no king, no rook, and the move is
    applied all the same. *)
Lemma apply_move_castling_witness :
  (apply_move empty_board "O-O-O#" "b").1 = true
  ∧ bget (apply_move empty_board "O-O-O#" "b").2 0 2 = "k"
  ∧ bget (apply_move empty_board "O-O-O#" "b").2 0 3 = "r".
Proof.
  pose proof (apply_move_castling empty_board "O-O-O#" "b" empty_board_wf
                eq_refl) as H.
  simpl in H. destruct H as (H1 & _ & _ & _ & H2 & H3 & _).
  exact (conj H1 (conj H2 H3)).
Defined.

(** ** Loops left by a jump *)

Lemma loop_until_spec {A B} (body : A → option B) (l : list A) :
  match loop_until body l with
  | Some y =>
      ∃ (i : nat) x, l !! i = Some x ∧ body x = Some y
        ∧ ∀ (j : nat) x', (j < i)%nat → l !! j = Some x' → body x' = None
  | None => ∀ x, x ∈ l → body x = None
  end.
Proof.
  induction l as [|a l IH]; simpl.
  - intros x Hx. by apply elem_of_nil in Hx.
  - destruct (body a) as [y|] eqn:Ha.
    + exists 0%nat, a. split_and!; [done..|]. intros j x' Hj. lia.
    + destruct (loop_until body l) as [y|].
      * destruct IH as (i & x & Hi & Hx & Hfirst).
        exists (S i), x. split_and!; [done..|].
        intros [|j] x' Hj Hl; simpl in Hl; [congruence|].
        apply (Hfirst j); [lia|done].
      * intros x [->|Hx]%elem_of_cons; auto.
Qed.

(** The same for a counting loop [for (i = 0; i < n; i++)]. *)
Lemma loop_until_seqZ {B} (body : Z → option B) (n : Z) :
  match loop_until body (seqZ 0 n) with
  | Some y => ∃ i, 0 ≤ i < n ∧ body i = Some y ∧ ∀ j, 0 ≤ j < i → body j = None
  | None => ∀ j, 0 ≤ j < n → body j = None
  end.
Proof.
  pose proof (loop_until_spec body (seqZ 0 n)) as H.
  destruct (loop_until body (seqZ 0 n)) as [y|].
  - destruct H as (i & x & Hi & Hx & Hfirst).
    apply lookup_seqZ in Hi as [-> Hi]. exists (Z.of_nat i).
    split_and!; [lia..|done|].
    intros j Hj. apply (Hfirst (Z.to_nat j)); [lia|].
    apply lookup_seqZ. lia.
  - intros j Hj. apply H, elem_of_seqZ. lia.
Qed.

(** ** The piece locator *)

Lemma candidate_spec b piece dest_row dest_col src_row_hint src_col_hint r c :
  candidate b piece dest_row dest_col src_row_hint src_col_hint r c = true
  ↔ bget b r c = piece
    ∧ (src_row_hint < 0 ∨ r = src_row_hint)
    ∧ (src_col_hint < 0 ∨ c = src_col_hint)
    ∧ reaches b piece dest_row dest_col r c = true.
Proof.
  unfold candidate, ceq.
  destruct (Ascii.eqb_spec (bget b r c) piece) as [Hp|Hp]; simpl.
  2: { split; [done|]. intros [? _]. done. }
  destruct (Z.geb_spec src_row_hint 0), (Z.eqb_spec r src_row_hint);
    destruct (Z.geb_spec src_col_hint 0), (Z.eqb_spec c src_col_hint); simpl;
    (split; [intros ?; first [done | split_and!; first [done | lia]]
            | intros (_ & ? & ? & ?); first [done | lia]]).
Qed.

Lemma find_piece_spec b piece dest_row dest_col src_row_hint src_col_hint :
  let ok r c :=
    bget b r c = piece
    ∧ (src_row_hint < 0 ∨ r = src_row_hint)
    ∧ (src_col_hint < 0 ∨ c = src_col_hint)
    ∧ reaches b piece dest_row dest_col r c = true in
  match find_piece b piece dest_row dest_col src_row_hint src_col_hint with
  | Some (r, c) =>
      (0 ≤ r < 8 ∧ 0 ≤ c < 8) ∧ ok r c
      ∧ ∀ r' c', 0 ≤ r' < 8 → 0 ≤ c' < 8 → before r' c' r c → ¬ ok r' c'
  | None => ∀ r c, 0 ≤ r < 8 → 0 ≤ c < 8 → ¬ ok r c
  end.
Proof.
  intros ok. unfold find_piece.
  set (cand := candidate b piece dest_row dest_col src_row_hint src_col_hint).
  assert (Hok : ∀ r c, cand r c = true ↔ ok r c) by (intros; apply candidate_spec).
  set (inner := λ r : Z,
         loop_until (λ c, if cand r c then Some (r, c) else None) (seqZ 0 COLS)).
  assert (Hinner : ∀ r, match inner r with
            | Some (r', c) => r' = r ∧ 0 ≤ c < 8 ∧ cand r c = true
                              ∧ ∀ c', 0 ≤ c' < c → cand r c' = false
            | None => ∀ c, 0 ≤ c < 8 → cand r c = false
            end).
  { intros r. unfold inner.
    pose proof (loop_until_seqZ
      (λ c, if cand r c then Some (r, c) else None) COLS) as H.
    destruct (loop_until _ (seqZ 0 COLS)) as [[r' c]|].
    - destruct H as (i & Hi & Hbody & Hfirst).
      destruct (cand r i) eqn:Hc; [|discriminate Hbody].
      injection Hbody as <- <-.
      split_and!; [done|unfold COLS in Hi; lia..|done|].
      intros c' Hc'. specialize (Hfirst c' Hc'). by destruct (cand r c').
    - intros c Hc. specialize (H c Hc). by destruct (cand r c). }
  pose proof (loop_until_seqZ inner ROWS) as H.
  destruct (loop_until inner (seqZ 0 ROWS)) as [[r c]|]; unfold ROWS in H.
  - destruct H as (i & Hi & Hbody & Hfirst).
    pose proof (Hinner i) as Hin. rewrite Hbody in Hin.
    destruct Hin as (-> & Hc & Hcand & Hcfirst).
    split_and!; [lia..|by apply Hok|].
    intros r' c' Hr' Hc' [Hlt|[-> Hlt]] Hok'%Hok.
    + pose proof (Hinner r') as Hin. rewrite (Hfirst r') in Hin by lia.
      rewrite (Hin c') in Hok'; done.
    + rewrite (Hcfirst c') in Hok'; [done|lia].
  - intros r c Hr Hc Hok'%Hok.
    pose proof (Hinner r) as Hin. rewrite (H r Hr) in Hin.
    rewrite (Hin c Hc) in Hok'. done.
Qed.

Lemma find_piece_Some b piece dest_row dest_col src_row_hint src_col_hint r c :
  find_piece b piece dest_row dest_col src_row_hint src_col_hint = Some (r, c) →
  (0 ≤ r < 8 ∧ 0 ≤ c < 8) ∧ bget b r c = piece
  ∧ (src_row_hint < 0 ∨ r = src_row_hint)
  ∧ (src_col_hint < 0 ∨ c = src_col_hint)
  ∧ reaches b piece dest_row dest_col r c = true.
Proof.
  intros H.
  pose proof (find_piece_spec b piece dest_row dest_col src_row_hint src_col_hint)
    as Hs.
  rewrite H in Hs. simpl in Hs. tauto.
Qed.

(** C5.  A king that stands on the destination square is returned as the
    source, although no movement rule reaches a square from itself: the
    king's rule is one of the 8 adjacent squares.  Black king on d5, token
    "Kd5": [find_piece] answers d5, and [apply_move] reports a move made. *)
Example find_piece_king_in_place :
  let b := fen_board (parse_fen "8/8/8/3k4/8/8/8/8 b") in
  piece_of_char "k" = Some (Black, King)
  ∧ find_piece b "k" 3 3 (-1) (-1) = Some (3, 3)
  ∧ ¬ movement_rule b Black King 3 3 3 3
  ∧ apply_move b "Kd5" "b" = (true, b).
Proof.
  vm_compute. split_and!; [done|done| |done]. intros [=].
Qed.

(** Without hints, of two squares that both qualify the later one in scan
    order is never the one returned. *)
Lemma find_piece_tie_break b piece dest_row dest_col r1 c1 r2 c2 :
  0 ≤ r1 < 8 → 0 ≤ c1 < 8 →
  bget b r1 c1 = piece → reaches b piece dest_row dest_col r1 c1 = true →
  before r1 c1 r2 c2 →
  find_piece b piece dest_row dest_col (-1) (-1) ≠ Some (r2, c2)
  ∧ find_piece b piece dest_row dest_col (-1) (-1) ≠ None.
Proof.
  intros Hr Hc Hp Hreach Hbefore.
  pose proof (find_piece_spec b piece dest_row dest_col (-1) (-1)) as Hs.
  simpl in Hs.
  destruct (find_piece b piece dest_row dest_col (-1) (-1)) as [[r c]|].
  - split; [|done]. intros [= -> ->].
    destruct Hs as (_ & _ & Hfirst).
    apply (Hfirst r1 c1 Hr Hc Hbefore). split_and!; auto; lia.
  - exfalso. apply (Hs r1 c1 Hr Hc). split_and!; auto; lia.
Qed.

(** With a file hint, the square returned is on that file. *)
Lemma find_piece_file_hint b piece dest_row dest_col src_col_hint r c :
  0 ≤ src_col_hint →
  find_piece b piece dest_row dest_col (-1) src_col_hint = Some (r, c) →
  c = src_col_hint.
Proof. intros Hh H. apply find_piece_Some in H. lia. Qed.

(** Knights on f3 and b1 both reach d2: "Nd2" moves the one on f3, which
    comes first in scan order, and "Nbd2" the one on the b-file. *)
Example two_knights :
  let b := fen_board (parse_fen "8/8/8/8/8/5N2/8/1N6 w") in
  reaches b "N" 6 3 5 5 = true ∧ reaches b "N" 6 3 7 1 = true
  ∧ find_piece b "N" 6 3 (-1) (-1) = Some (5, 5)
  ∧ parse_move (list_ascii_of_string "Nbd2") "w"
    = Some (MoveFields "N" NUL 6 3 (-1) 1)
  ∧ find_piece b "N" 6 3 (-1) 1 = Some (7, 1)
  ∧ (apply_move b "Nbd2" "w").2
    = fen_board (parse_fen "8/8/8/8/8/5N2/3N4/8 w")
  ∧ (apply_move b "Nd2" "w").2
    = fen_board (parse_fen "8/8/8/8/8/8/3N4/1N6 w").
Proof. vm_compute. by repeat split. Qed.

(** ** Failing moves *)

(** [apply_move] fails exactly on a non-castling token that is too short or
    names a destination off the board ([parse_move] gives [None]), or for
    which [find_piece] finds no source square. *)
Lemma apply_move_fails b move side :
  let tok := c_str (list_ascii_of_string move) in
  (apply_move b move side).1 = false
  ↔ is_castle_short tok = false ∧ is_castle_long tok = false
    ∧ match parse_move tok side with
      | None => True
      | Some m =>
          find_piece b (mv_piece m) (mv_dest_row m) (mv_dest_col m)
                     (mv_src_row_hint m) (mv_src_col_hint m) = None
      end.
Proof.
  unfold apply_move. simpl.
  destruct (is_castle_short _); [simpl; by intuition|].
  destruct (is_castle_long _); [simpl; by intuition|].
  destruct (parse_move _ side) as [m|]; [|simpl; by intuition].
  destruct (find_piece _ _ _ _ _ _) as [[r c]|]; simpl; by intuition.
Qed.

(** C7.  When [apply_move] reports failure, the board it was given is
    returned as it was: the token is not a castling token, and either it is
    too short or names a destination off the board ([parse_move] stops), or
    [find_piece] finds no source square; each of these exits is taken before
    any cell is written. *)
Theorem apply_move_failure_keeps_board b move side :
  (apply_move b move side).1 = false →
  (apply_move b move side).2 = b
  ∧ let tok := c_str (list_ascii_of_string move) in
    is_castle_short tok = false ∧ is_castle_long tok = false
    ∧ match parse_move tok side with
      | None => True
      | Some m =>
          find_piece b (mv_piece m) (mv_dest_row m) (mv_dest_col m)
                     (mv_src_row_hint m) (mv_src_col_hint m) = None
      end.
Proof.
  intros Hfail. split; [|by apply apply_move_fails].
  revert Hfail. unfold apply_move. simpl.
  destruct (is_castle_short _); [done|].
  destruct (is_castle_long _); [done|].
  destruct (parse_move _ side) as [m|]; [|done].
  by destruct (find_piece _ _ _ _ _ _) as [[r c]|].
Qed.

(** On the empty board: a token with no destination, one whose destination
    is off the board, and one for which no pawn is found. *)
Lemma apply_move_failure_keeps_board_witness :
  (apply_move empty_board "e4" "w").2 = empty_board
  ∧ (apply_move empty_board "N" "w").2 = empty_board
  ∧ (apply_move empty_board "Qz9" "b").2 = empty_board.
Proof.
  split_and!.
  - exact (proj1 (apply_move_failure_keeps_board empty_board "e4" "w" eq_refl)).
  - exact (proj1 (apply_move_failure_keeps_board empty_board "N" "w" eq_refl)).
  - exact (proj1 (apply_move_failure_keeps_board empty_board "Qz9" "b" eq_refl)).
Defined.

Example failing_exits :
  parse_move (list_ascii_of_string "N") "w" = None
  ∧ parse_move (list_ascii_of_string "Qz9") "b" = None
  ∧ parse_move (list_ascii_of_string "e4") "w"
    = Some (MoveFields "P" NUL 4 4 (-1) (-1))
  ∧ find_piece empty_board "P" 4 4 (-1) (-1) = None.
Proof. vm_compute. by repeat split. Qed.

(** ** The king's rule *)

Lemma toupper_is_K piece : toupper piece = "K" → piece = "K" ∨ piece = "k".
Proof.
  destruct piece as [[] [] [] [] [] [] [] []]; vm_compute; intros H;
    first [by left | by right | discriminate H].
Qed.

(** The test of the source for a king: Chebyshev distance at most one, the
    destination square itself included. *)
Lemma reaches_king b piece dest_row dest_col r c :
  toupper piece = "K" →
  reaches b piece dest_row dest_col r c = true
  ↔ chebyshev r c dest_row dest_col ≤ 1.
Proof.
  intros H. unfold reaches, chebyshev. rewrite H. simpl.
  rewrite andb_true_iff, !Z.leb_le. lia.
Qed.

(** A king standing on the destination passes the test: on a board with the
    White king on e1, the token "Ke1" is applied (and changes nothing). *)
Example king_on_destination :
  let b := fen_board (parse_fen "8/8/8/8/8/8/8/4K3 w") in
  chebyshev 7 4 7 4 = 0
  ∧ reaches b "K" 7 4 7 4 = true
  ∧ find_piece b "K" 7 4 (-1) (-1) = Some (7, 4)
  ∧ apply_move b "Ke1" "w" = (true, b).
Proof. vm_compute. by repeat split. Qed.

(** The other pieces never accept the destination square as a source. *)
Lemma slide_not_in_place fuel b dest_row dest_col dr dc r c k :
  (dr, dc) ≠ (0, 0) → -1 ≤ dr ≤ 1 → -1 ≤ dc ≤ 1 → 0 < k →
  slide fuel b dest_row dest_col dr dc (r + k * dr) (c + k * dc) = true →
  (r, c) ≠ (dest_row, dest_col).
Proof.
  intros Hd Hdr Hdc. revert k.
  induction fuel as [|fuel IH]; intros k Hk; simpl; [done|].
  destruct (_ && _ && _ && _); [|done].
  destruct ((r + k * dr =? dest_row) && (c + k * dc =? dest_col)) eqn:E.
  - intros _ [= <- <-]. apply andb_true_iff in E as [E1 E2].
    apply Hd. f_equal; nia.
  - destruct (negb _); [done|].
    replace (r + k * dr + dr) with (r + (k + 1) * dr) by lia.
    replace (c + k * dc + dc) with (c + (k + 1) * dc) by lia.
    apply IH. lia.
Qed.

Lemma slide_dirs_not_in_place b dest_row dest_col r c dirs :
  Forall (λ d, d ≠ (0, 0) ∧ -1 ≤ d.1 ≤ 1 ∧ -1 ≤ d.2 ≤ 1) dirs →
  slide_dirs b dest_row dest_col r c dirs = true →
  (r, c) ≠ (dest_row, dest_col).
Proof.
  intros Hdirs H. unfold slide_dirs in H.
  apply existsb_exists in H as [[dr dc] [Hin H]].
  rewrite Forall_forall in Hdirs.
  apply list_elem_of_In, Hdirs in Hin as (Hd & Hdr & Hdc).
  cbn [fst snd] in Hdr, Hdc.
  apply (slide_not_in_place 8 b dest_row dest_col dr dc r c 1);
    [exact Hd|exact Hdr|exact Hdc|lia|].
  rewrite !Z.mul_1_l. exact H.
Qed.

Ltac bool_to_prop H :=
  repeat first
    [ rewrite andb_true_iff in H | rewrite orb_true_iff in H
    | rewrite Z.eqb_eq in H | rewrite Z.leb_le in H | rewrite Z.ltb_lt in H ].

(** Pawns, knights, bishops, rooks and queens reach the destination only from
    another square: the king's rule alone admits distance zero. *)
Lemma reaches_not_in_place b piece dest_row dest_col r c :
  toupper piece ≠ "K" →
  reaches b piece dest_row dest_col r c = true →
  (r, c) ≠ (dest_row, dest_col).
Proof.
  intros HK. unfold reaches.
  destruct (toupper piece) as [[] [] [] [] [] [] [] []];
    try (intros; discriminate); try (by destruct HK).
  all: try (apply slide_dirs_not_in_place;
            repeat constructor; cbn [fst snd]; (done || lia)).
  - (* knight *)
    cbn. intros H [= <- <-]. rewrite orb_false_r in H. bool_to_prop H. lia.
  - (* pawn *)
    intros H [= <- <-]. rewrite !Z.eqb_refl in H.
    destruct (isupper piece), (ceq (bget b r c) "."); cbn in H;
      bool_to_prop H; lia.
Qed.

(** ** Applying a move *)

Lemma parse_move_dest tok side m :
  parse_move tok side = Some m →
  0 ≤ mv_dest_row m < 8 ∧ 0 ≤ mv_dest_col m < 8.
Proof.
  unfold parse_move. intros H.
  repeat case_match; simplify_eq/=;
    repeat match goal with
      | H : _ || _ = false |- _ => apply orb_false_elim in H as [? ?]
      end;
    repeat match goal with
      | H : (_ <? _) = false |- _ => apply Z.ltb_ge in H
      | H : (_ >=? _) = false |- _ => rewrite Z.geb_leb in H; apply Z.leb_gt in H
      end;
    unfold ROWS, COLS in *; lia.
Qed.

Lemma c_str_idemp s : c_str (c_str s) = c_str s.
Proof.
  induction s as [|ch s IH]; cbn [c_str]; [done|].
  destruct (ceq ch NUL) eqn:E; cbn [c_str]; [done|]. by rewrite E, IH.
Qed.

Lemma parse_move_side tok side :
  parse_move tok side = parse_move tok (if ceq side "w" then "w" else "b").
Proof.
  unfold parse_move. destruct (ceq side "w"); reflexivity.
Qed.

(** A castling token is never read as an ordinary move. *)
Lemma castle_not_parsed tok side :
  is_castle_short tok || is_castle_long tok = true →
  parse_move tok side = None.
Proof.
  intros H. rewrite parse_move_side.
  assert (∀ s, parse_move tok s = parse_move (c_str tok) s) as ->.
  { intros s. unfold parse_move, strncpy.
    by rewrite c_str_idemp. }
  unfold is_castle_short, is_castle_long, streq in H.
  repeat (apply orb_true_iff in H as [H|H]);
    apply bool_decide_eq_true in H; rewrite H;
    by destruct (ceq side "w").
Qed.

(** A pawn that reaches a square on another file gets there by the capture
    rule: one row ahead (either direction, by colour), one file aside. *)
Lemma reaches_pawn_capture b piece dest_row dest_col r c :
  toupper piece = "P" →
  reaches b piece dest_row dest_col r c = true →
  c ≠ dest_col →
  (r - 1 = dest_row ∨ r + 1 = dest_row)
  ∧ (c - 1 = dest_col ∨ c + 1 = dest_col).
Proof.
  intros HP H Hc. unfold reaches in H. rewrite HP in H.
  destruct (Z.eqb_spec c dest_col) as [|_]; [done|].
  destruct (isupper piece); cbn in H; bool_to_prop H; lia.
Qed.

Lemma perform_move_en_passant b side m src_row src_col :
  board_wf b →
  0 ≤ src_row < 8 → 0 ≤ src_col < 8 →
  0 ≤ mv_dest_row m < 8 → 0 ≤ mv_dest_col m < 8 →
  toupper (mv_piece m) = "P" →
  src_col ≠ mv_dest_col m → src_row ≠ mv_dest_row m →
  bget b (mv_dest_row m) (mv_dest_col m) = "." →
  let b' := perform_move b side m src_row src_col in
  bget b' src_row src_col = "."
  ∧ bget b' src_row (mv_dest_col m) = "."
  ∧ bget b' (mv_dest_row m) (mv_dest_col m)
    = (if ceq (mv_promote_to m) NUL then mv_piece m
       else if ceq side "w" then toupper (mv_promote_to m)
       else tolower (mv_promote_to m))
  ∧ ∀ r c, (r, c) ≠ (src_row, src_col) → (r, c) ≠ (src_row, mv_dest_col m) →
           (r, c) ≠ (mv_dest_row m, mv_dest_col m) →
           bget b' r c = bget b r c.
Proof.
  intros Hwf Hsr Hsc Hdr Hdc HP Hcol Hrow Hempty b'. subst b'.
  unfold perform_move. rewrite HP, Hempty.
  destruct (Z.eqb_spec src_col (mv_dest_col m)) as [|_]; [done|].
  change (ceq "P" "P" && negb false && ceq "." ".") with true. cbv iota.
  destruct (ceq (mv_promote_to m) NUL); cbn [negb];
    split_and!; grid_simpl; try done;
    intros r c H1 H2 H3; grid_simpl; done.
Qed.

Lemma apply_move_performed b move side m src_row src_col :
  parse_move (c_str (list_ascii_of_string move)) side = Some m →
  find_piece b (mv_piece m) (mv_dest_row m) (mv_dest_col m)
             (mv_src_row_hint m) (mv_src_col_hint m)
    = Some (src_row, src_col) →
  apply_move b move side = (true, perform_move b side m src_row src_col).
Proof.
  intros Hm Hf. unfold apply_move. cbv zeta.
  destruct (is_castle_short _) eqn:Es.
  { rewrite castle_not_parsed in Hm; [done|]. by rewrite Es. }
  destruct (is_castle_long _) eqn:El.
  { rewrite castle_not_parsed in Hm; [done|]. by rewrite Es, El. }
  by rewrite Hm, Hf.
Qed.

(** C6 (as the code has it).  When a token is read as a pawn move, the source
    found is on another file than the destination and the destination square
    is empty, [apply_move] succeeds, clears the source square, clears the
    square on the source's rank and the destination's file, and writes on the
    destination the moving pawn or, when the token ends in a promotion suffix
    "=X", the letter X in the case of the side to move; no other cell
    changes. *)
Theorem apply_move_en_passant b move side m src_row src_col :
  board_wf b →
  parse_move (c_str (list_ascii_of_string move)) side = Some m →
  toupper (mv_piece m) = "P" →
  find_piece b (mv_piece m) (mv_dest_row m) (mv_dest_col m)
             (mv_src_row_hint m) (mv_src_col_hint m)
    = Some (src_row, src_col) →
  src_col ≠ mv_dest_col m →
  bget b (mv_dest_row m) (mv_dest_col m) = "." →
  let b' := (apply_move b move side).2 in
  (apply_move b move side).1 = true
  ∧ bget b' src_row src_col = "."
  ∧ bget b' src_row (mv_dest_col m) = "."
  ∧ bget b' (mv_dest_row m) (mv_dest_col m)
    = (if ceq (mv_promote_to m) NUL then mv_piece m
       else if ceq side "w" then toupper (mv_promote_to m)
       else tolower (mv_promote_to m))
  ∧ ∀ r c, (r, c) ≠ (src_row, src_col) → (r, c) ≠ (src_row, mv_dest_col m) →
           (r, c) ≠ (mv_dest_row m, mv_dest_col m) →
           bget b' r c = bget b r c.
Proof.
  intros Hwf Hm HP Hf Hcol Hempty b'. subst b'.
  rewrite (apply_move_performed _ _ _ _ _ _ Hm Hf). cbn [fst snd].
  split; [done|].
  pose proof (parse_move_dest _ _ _ Hm) as [Hdr Hdc].
  apply find_piece_Some in Hf as ([Hsr Hsc] & _ & _ & _ & Hreach).
  pose proof (reaches_pawn_capture _ _ _ _ _ _ HP Hreach Hcol) as [Hrow _].
  apply perform_move_en_passant; (done || lia).
Qed.

(** White pawn on e5, Black pawn on d5, "exd6": e5 and d5 are cleared and
    the pawn stands on d6. *)
Lemma apply_move_en_passant_witness :
  let b := fen_board (parse_fen "8/8/8/3pP3/8/8/8/8 w") in
  let b' := (apply_move b "exd6" "w").2 in
  bget b 3 3 = "p"
  ∧ bget b' 3 4 = "." ∧ bget b' 3 3 = "." ∧ bget b' 2 3 = "P".
Proof.
  intros b b'. split; [reflexivity|].
  assert (Hwf : board_wf b) by (split; [reflexivity | repeat constructor]).
  pose proof (apply_move_en_passant b "exd6" "w"
                (MoveFields "P" NUL 2 3 (-1) 4) 3 4 Hwf eq_refl eq_refl eq_refl
                ltac:(simpl; lia) eq_refl) as (_ & H1 & H2 & H3 & _).
  exact (conj H1 (conj H2 H3)).
Defined.

(** The same capture onto the last rank with a promotion suffix: White pawn
    on e7, d8 empty, "exd8=Q".  The destination receives the queen, not the
    pawn. *)
Lemma en_passant_promotion_counterexample :
  let b := fen_board (parse_fen "8/4P3/8/8/8/8/8/8 w") in
  parse_move (list_ascii_of_string "exd8=Q") "w"
    = Some (MoveFields "P" "Q" 0 3 (-1) 4)
  ∧ find_piece b "P" 0 3 (-1) 4 = Some (1, 4)
  ∧ bget b 0 3 = "."
  ∧ bget (apply_move b "exd8=Q" "w").2 0 3 = "Q"
  ∧ ¬ en_passant_places_pawn b "exd8=Q" "w".
Proof.
  intros b. split_and!; try reflexivity.
  intros H.
  specialize (H (MoveFields "P" "Q" 0 3 (-1) 4) 1 4 eq_refl eq_refl eq_refl
                ltac:(simpl; lia) eq_refl).
  destruct H as (_ & _ & _ & H). vm_compute in H. discriminate H.
Qed.

(** ** Decoding a position *)

Lemma digit_value ch : between "1" "8" ch = true → 1 ≤ code ch - code "0" ≤ 8.
Proof.
  unfold between. change (code "1") with 49. change (code "8") with 56.
  change (code "0") with 48. intros H. bool_to_prop H. lia.
Qed.

Lemma do_writes_wf b ws : board_wf b → board_wf (do_writes b ws).
Proof.
  revert b. induction ws as [|[[r c] x] ws IH]; intros b Hwf; [done|].
  apply IH, bset_wf, Hwf.
Qed.

Lemma fen_placement_wf p row col b :
  board_wf b → board_wf (fen_placement p row col b).1.
Proof.
  revert row col b. induction p as [|ch p IH]; intros row col b Hwf; [done|].
  cbn [fen_placement].
  destruct (ceq ch NUL || ceq ch " "); [done|].
  destruct (ceq ch "/"); [by apply IH|].
  destruct (between "1" "8" ch); [by apply IH|].
  apply IH. destruct ((row <? ROWS) && (col <? COLS)); [|done].
  by apply bset_wf.
Qed.

(** A piece letter met outside the grid changes nothing but the column. *)
Lemma fen_placement_discard ch p row col b :
  ceq ch NUL || ceq ch " " = false → ceq ch "/" = false →
  between "1" "8" ch = false →
  ¬ (row < 8 ∧ col < 8) →
  fen_placement (ch :: p) row col b = fen_placement p row (col + 1) b.
Proof.
  intros H1 H2 H3 Hout. cbn [fen_placement]. rewrite H1, H2, H3.
  destruct (Z.ltb_spec row ROWS), (Z.ltb_spec col COLS);
    unfold ROWS, COLS in *; simpl; (done || lia).
Qed.

(** The loop stops at the end of the placement field. *)
Lemma fen_placement_cursor p row col b :
  (fen_placement p row col b).2 = drop (length (placement_field p)) p.
Proof.
  revert row col b. induction p as [|ch p IH]; intros row col b; [done|].
  cbn [fen_placement placement_field].
  destruct (ceq ch NUL || ceq ch " "); [done|].
  destruct (ceq ch "/"); [apply IH|].
  destruct (between "1" "8" ch); apply IH.
Qed.

Lemma parse_fen_unfold fen :
  let p := list_ascii_of_string fen in
  let rest := drop (length (placement_field p)) p in
  parse_fen fen
  = FenResult true (fen_placement p 0 0 empty_board).1
              (deref (if ceq (deref rest) " " then tail rest else rest)).
Proof.
  intros p rest. unfold parse_fen. fold p.
  pose proof (fen_placement_cursor p 0 0 empty_board) as Hc.
  destruct (fen_placement p 0 0 empty_board) as [b q]. simpl in Hc.
  by subst.
Qed.

Lemma parse_fen_wf fen : board_wf (fen_board (parse_fen fen)).
Proof. rewrite parse_fen_unfold. apply fen_placement_wf, empty_board_wf. Qed.

(** *** The loop on the machine *)





(** A piece letter met inside the guard is stored, wherever the guard lets
    it through. *)
Lemma fen_loop_store ch p row col b :
  ceq ch NUL || ceq ch " " = false → ceq ch "/" = false →
  between "1" "8" ch = false →
  row < 8 → col < 8 →
  fen_loop (ch :: p) row col b
  = b' ← store b row col ch; fen_loop p row (wrap (col + 1)) b'.
Proof.
  intros H1 H2 H3 Hr Hc. cbn [fen_loop]. rewrite H1, H2, H3.
  destruct (Z.ltb_spec row ROWS), (Z.ltb_spec col COLS);
    unfold ROWS, COLS in *; try lia.
  cbn [andb]. by destruct (store b row col ch).
Qed.




(** *** Strings of 2^28 bytes and more *)




Example parse_fen_truncated :
  fen_side (parse_fen "8/8/8/8/8/8/8/8") = NUL
  ∧ fen_side (parse_fen "8/8/8/8/8/8/8/8 ") = NUL
  ∧ parse_fen "" = FenResult true empty_board NUL
  ∧ fen_board (parse_fen "ppppppppp/8/8/8/8/8/8/8/Q////K w")
    = fen_board (parse_fen "pppppppp/8/8/8/8/8/8/8 w").
Proof. vm_compute. by repeat split. Qed.

(** *** Placement against direct enumeration *)

Lemma do_writes_other b ws r c :
  (r, c) ∉ ws.*1 → bget (do_writes b ws) r c = bget b r c.
Proof.
  revert b. induction ws as [|[[r' c'] x] ws IH]; intros b Hnot; [done|].
  cbn [do_writes foldl] in *. rewrite fmap_cons in Hnot.
  apply not_elem_of_cons in Hnot as [Hne Hnot].
  change (bget (do_writes (bset b r' c' x) ws) r c = bget b r c).
  rewrite IH by done. apply bget_bset_ne. naive_solver.
Qed.

Lemma do_writes_written b ws r c x :
  board_wf b → NoDup ws.*1 →
  Forall (λ w, 0 ≤ w.1.1 < 8 ∧ 0 ≤ w.1.2 < 8) ws →
  (r, c, x) ∈ ws → bget (do_writes b ws) r c = x.
Proof.
  revert b. induction ws as [|[[r' c'] x'] ws IH]; intros b Hwf Hnd Hgrid Hin.
  { by apply elem_of_nil in Hin. }
  rewrite fmap_cons in Hnd. apply NoDup_cons in Hnd as [Hfresh Hnd].
  apply Forall_cons in Hgrid as [Hg Hgrid]. simpl in Hg, Hfresh.
  change (bget (do_writes (bset b r' c' x') ws) r c = x).
  apply elem_of_cons in Hin as [[= -> -> ->]|Hin].
  - rewrite do_writes_other by done.
    apply bget_bset_eq; [done|]. apply in_grid_spec. lia.
  - apply IH; [by apply bset_wf|done..].
Qed.

(** Enumeration moves forward: every triple lies at or after the cell the
    enumeration is at. *)
Lemma fen_enumerate_forward p row col r c x :
  0 ≤ col →
  (r, c, x) ∈ fen_enumerate p row col →
  row < r ∨ (r = row ∧ col ≤ c).
Proof.
  revert row col. induction p as [|ch p IH]; intros row col Hc Hin;
    cbn [fen_enumerate] in Hin.
  { by apply elem_of_nil in Hin. }
  destruct (ceq ch "/").
  { apply IH in Hin; lia. }
  destruct (between "1" "8" ch) eqn:Hd.
  { apply digit_value in Hd. apply IH in Hin; lia. }
  apply elem_of_cons in Hin as [[= -> -> ->]|Hin]; [lia|].
  apply IH in Hin; lia.
Qed.

Lemma fen_enumerate_NoDup p row col :
  0 ≤ col → NoDup (fen_enumerate p row col).*1.
Proof.
  revert row col. induction p as [|ch p IH]; intros row col Hc;
    cbn [fen_enumerate]; [constructor|].
  destruct (ceq ch "/"); [apply IH; lia|].
  destruct (between "1" "8" ch) eqn:Hd.
  { apply digit_value in Hd. apply IH; lia. }
  rewrite fmap_cons. apply NoDup_cons. split; [|apply IH; lia].
  intros ([[r c] x] & Heq & Hin)%list_elem_of_fmap. simpl in Heq.
  injection Heq as <- <-.
  apply fen_enumerate_forward in Hin; lia.
Qed.

Lemma valid_placement_row p row col :
  valid_placement_from p row col = true → row ≤ 7.
Proof.
  revert row col. induction p as [|ch p IH]; intros row col H;
    cbn [valid_placement_from] in H.
  { bool_to_prop H. lia. }
  destruct (ceq ch "/").
  { bool_to_prop H. lia. }
  destruct (between "1" "8" ch).
  - apply andb_true_iff in H as [_ H]. by apply IH in H.
  - apply andb_true_iff in H as [_ H]. by apply IH in H.
Qed.

(** In a valid placement every enumerated triple is a piece letter on a cell
    of the grid. *)
Lemma valid_enumerate p row col :
  0 ≤ row → 0 ≤ col →
  valid_placement_from p row col = true →
  Forall (λ w, (0 ≤ w.1.1 < 8 ∧ 0 ≤ w.1.2 < 8) ∧ is_piece_letter w.2 = true)
         (fen_enumerate p row col).
Proof.
  revert row col. induction p as [|ch p IH]; intros row col Hr Hc H;
    cbn [valid_placement_from fen_enumerate] in *; [constructor|].
  destruct (ceq ch "/").
  { apply andb_true_iff in H as [_ H]. apply IH; (done || lia). }
  destruct (between "1" "8" ch) eqn:Hd.
  { apply digit_value in Hd. apply andb_true_iff in H as [_ H].
    apply IH; (done || lia). }
  apply andb_true_iff in H as [H Hrest].
  apply andb_true_iff in H as [Hletter Hcol]. apply Z.ltb_lt in Hcol.
  pose proof (valid_placement_row _ _ _ Hrest).
  constructor; [simpl; split; [lia|done]|]. apply IH; (done || lia).
Qed.

(** On a valid placement the loop writes what direct enumeration lists. *)
Lemma valid_writes p row col b :
  0 ≤ row → 0 ≤ col →
  valid_placement_from (placement_field p) row col = true →
  (fen_placement p row col b).1
  = do_writes b (fen_enumerate (placement_field p) row col).
Proof.
  revert row col b. induction p as [|ch p IH]; intros row col b Hr Hc H;
    cbn [placement_field fen_placement]; [done|].
  cbn [placement_field] in H.
  destruct (ceq ch NUL || ceq ch " "); [done|].
  cbn [valid_placement_from fen_enumerate] in *.
  destruct (ceq ch "/").
  { apply andb_true_iff in H as [_ H]. apply IH; (done || lia). }
  destruct (between "1" "8" ch) eqn:Hd.
  { apply digit_value in Hd. apply andb_true_iff in H as [_ H].
    apply IH; (done || lia). }
  apply andb_true_iff in H as [H Hrest].
  apply andb_true_iff in H as [_ Hcol].
  pose proof (valid_placement_row _ _ _ Hrest) as Hrow.
  assert ((row <? ROWS) && (col <? COLS) = true) as ->.
  { unfold ROWS, COLS. apply Z.ltb_lt in Hcol. apply andb_true_iff.
    split; [apply Z.ltb_lt; lia | apply Z.ltb_lt; lia]. }
  rewrite IH by (done || lia). done.
Qed.

Lemma piece_letter_not_empty ch : is_piece_letter ch = true → ch ≠ ".".
Proof. by intros H ->. Qed.

(** A piece letter stands for one kind and one colour. *)
Lemma piece_letter_decodes ch :
  is_piece_letter ch = true →
  ∃ k, piece_of_char ch = Some (colour_of_char ch, k).
Proof.
  destruct ch as [[] [] [] [] [] [] [] []]; vm_compute; intros H;
    first [discriminate H | by eexists].
Qed.

Lemma bget_empty_board r c : bget empty_board r c = ".".
Proof.
  unfold bget, empty_board. destruct (in_grid r c); [|done].
  destruct (replicate 8 _ !! _) as [row|] eqn:Hrow; [|done].
  apply lookup_replicate in Hrow as [-> _].
  rewrite nth_lookup.
  destruct (replicate 8 _ !! _) as [x|] eqn:Hx; [|done].
  by apply lookup_replicate in Hx as [-> _].
Qed.

Lemma parse_fen_valid_board fen :
  let pf := placement_field (list_ascii_of_string fen) in
  valid_placement pf = true →
  fen_board (parse_fen fen) = do_writes empty_board (fen_enumerate pf 0 0).
Proof.
  intros pf Hv. rewrite parse_fen_unfold. cbn [fen_board].
  by rewrite valid_writes.
Qed.

(** C4.  For a string whose placement field is valid, the board that
    [parse_fen] returns holds exactly the triples of the direct enumeration
    of that field: a non-empty character [ch] stands on the cell [(r, c)] if
    and only if the enumeration lists [(r, c, ch)]; every other cell is
    empty; and each listed character is a piece letter, standing for one kind
    with colour White when upper case and Black when lower case. *)
Theorem parse_fen_placement fen :
  let pf := placement_field (list_ascii_of_string fen) in
  let b := fen_board (parse_fen fen) in
  valid_placement pf = true →
  (∀ r c ch, (r, c, ch) ∈ fen_enumerate pf 0 0
             ↔ (0 ≤ r < 8 ∧ 0 ≤ c < 8) ∧ bget b r c = ch ∧ ch ≠ ".")
  ∧ (∀ r c, (r, c) ∉ (fen_enumerate pf 0 0).*1 → bget b r c = ".")
  ∧ (∀ r c ch, (r, c, ch) ∈ fen_enumerate pf 0 0 →
               ∃ k, piece_of_char ch = Some (colour_of_char ch, k)).
Proof.
  intros pf b Hv. subst b. rewrite (parse_fen_valid_board fen Hv). fold pf.
  pose proof (valid_enumerate pf 0 0 ltac:(lia) ltac:(lia) Hv) as Hall.
  rewrite Forall_forall in Hall.
  assert (Hgrid : Forall (λ w, 0 ≤ w.1.1 < 8 ∧ 0 ≤ w.1.2 < 8)
                         (fen_enumerate pf 0 0)).
  { apply Forall_forall. intros w Hw. by apply Hall. }
  assert (Hnd : NoDup (fen_enumerate pf 0 0).*1)
    by (apply fen_enumerate_NoDup; lia).
  assert (Hwritten : ∀ r c ch, (r, c, ch) ∈ fen_enumerate pf 0 0 →
            bget (do_writes empty_board (fen_enumerate pf 0 0)) r c = ch).
  { intros r c ch Hin.
    by apply do_writes_written; [apply empty_board_wf|..]. }
  assert (Hother : ∀ r c, (r, c) ∉ (fen_enumerate pf 0 0).*1 →
            bget (do_writes empty_board (fen_enumerate pf 0 0)) r c = ".").
  { intros r c Hnot. rewrite do_writes_other by done.
    apply bget_empty_board. }
  split_and!.
  - intros r c ch. split.
    + intros Hin. destruct (Hall _ Hin) as [Hg Hl]. simpl in Hg, Hl.
      split_and!; [lia..|by apply Hwritten|by apply piece_letter_not_empty].
    + intros (_ & Hget & Hne).
      destruct (decide ((r, c) ∈ (fen_enumerate pf 0 0).*1)) as [Hin|Hnot].
      * apply list_elem_of_fmap in Hin as ([[r' c'] ch'] & [= <- <-] & Hin).
        by rewrite <- Hget, (Hwritten _ _ _ Hin).
      * rewrite Hother in Hget by done. congruence.
  - done.
  - intros r c ch Hin. destruct (Hall _ Hin) as [_ Hl].
    by apply piece_letter_decodes.
Qed.

(** The initial position: the White king stands on e1, and e4 is empty. *)
Lemma parse_fen_placement_witness :
  let fen := "rnbqkbnr/pppppppp/8/8/8/8/PPPPPPPP/RNBQKBNR w KQkq - 0 1"%string in
  bget (fen_board (parse_fen fen)) 7 4 = "K"
  ∧ bget (fen_board (parse_fen fen)) 4 4 = ".".
Proof.
  intros fen.
  destruct (parse_fen_placement fen eq_refl) as (Hiff & Hother & _).
  split.
  - apply (Hiff 7 4 "K"). apply list_elem_of_In. vm_compute. tauto.
  - apply Hother. rewrite list_elem_of_In. vm_compute. intuition congruence.
Defined.

(** ** Static evaluation *)

(** What one square adds to the score, in the specification's terms. *)
Lemma evaluate_square_spec b score row col :
  evaluate_square b score row col
  = score + (if occupied b (row, col) then
               match piece_of_char (bget b row col) with
               | Some pc => square_score row col pc
               | None => 0
               end
             else 0).
Proof.
  unfold evaluate_square, occupied, square_score. cbn [fst snd].
  generalize (centre_bonus_at row col) as cb.
  generalize (bget b row col) as ch. intros ch cb.
  destruct ch as [[] [] [] [] [] [] [] []];
    match goal with
    | |- context [piece_of_char ?c] =>
        let v := eval vm_compute in (piece_of_char c) in
        change (piece_of_char c) with v
    end;
    cbn;
    unfold VAL_PAWN, VAL_KNIGHT, VAL_BISHOP, VAL_ROOK, VAL_QUEEN, VAL_KING;
    lia.
Qed.

Lemma foldl_add {A} (f : A → Z) (g : Z → A → Z) (l : list A) (a : Z) :
  (∀ s x, g s x = s + f x) →
  foldl g a l = a + Zsum (map f l).
Proof.
  intros Hg. revert a. induction l as [|x l IH]; intros a; simpl; [lia|].
  rewrite IH, Hg. lia.
Qed.

Lemma Zsum_app l1 l2 : Zsum (l1 ++ l2) = Zsum l1 + Zsum l2.
Proof. induction l1 as [|x l1 IH]; simpl; [done|]. rewrite IH. lia. Qed.

Lemma Zsum_filter {A} (P : A → bool) (f : A → Z) (l : list A) :
  Zsum (map f (filter (λ x, P x = true) l))
  = Zsum (map (λ x, if P x then f x else 0) l).
Proof.
  induction l as [|x l IH]; [done|].
  rewrite filter_cons. destruct (P x) eqn:E.
  - rewrite decide_True by done. simpl. by rewrite E, IH.
  - rewrite decide_False by done. simpl. by rewrite E, IH.
Qed.

Lemma Zsum_row (f : Z * Z → Z) (r : Z) (cols : list Z) :
  Zsum (map f (cols ≫= λ c, [(r, c)])) = Zsum (map (λ c, f (r, c)) cols).
Proof.
  induction cols as [|c cols IH]; [done|].
  unfold Zsum in *. cbn [mbind list_bind map app foldr] in *. by rewrite IH.
Qed.

Lemma Zsum_squares (f : Z * Z → Z) :
  Zsum (map f squares)
  = Zsum (map (λ r, Zsum (map (λ c, f (r, c)) (seqZ 0 COLS))) (seqZ 0 ROWS)).
Proof.
  unfold squares. generalize (seqZ 0 ROWS) as rows.
  induction rows as [|r rows IH]; [done|].
  cbn [mbind list_bind map] in *. rewrite map_app, Zsum_app, Zsum_row, IH.
  done.
Qed.

(** The score of the loops is the sum over the occupied squares. *)
Lemma evaluate_eq_spec b : evaluate b = spec_evaluate b.
Proof.
  unfold evaluate, spec_evaluate.
  rewrite (Zsum_filter (occupied b)
             (λ sq, match piece_of_char (bget b sq.1 sq.2) with
                    | Some pc => square_score sq.1 sq.2 pc
                    | None => 0
                    end)).
  rewrite Zsum_squares. cbn [fst snd].
  rewrite (foldl_add
    (λ r, Zsum (map (λ c, if occupied b (r, c) then
                            match piece_of_char (bget b r c) with
                            | Some pc => square_score r c pc
                            | None => 0
                            end
                          else 0) (seqZ 0 COLS)))); [lia|].
  intros s r.
  apply (foldl_add (λ c, if occupied b (r, c) then
                            match piece_of_char (bget b r c) with
                            | Some pc => square_score r c pc
                            | None => 0
                            end
                          else 0)).
  intros s' c. apply evaluate_square_spec.
Qed.

Lemma elem_of_squares r c : (r, c) ∈ squares ↔ 0 ≤ r < 8 ∧ 0 ≤ c < 8.
Proof.
  unfold squares. rewrite list_elem_of_bind. split.
  - intros (r' & Hc & Hr). apply list_elem_of_bind in Hc as (c' & Hin & Hc).
    apply list_elem_of_singleton in Hin as [= -> ->].
    apply elem_of_seqZ in Hr, Hc. unfold ROWS, COLS in *. lia.
  - intros [Hr Hc]. exists r. split; [|apply elem_of_seqZ; unfold ROWS; lia].
    apply list_elem_of_bind. exists c.
    split; [by apply list_elem_of_singleton|apply elem_of_seqZ; unfold COLS; lia].
Qed.

(** A property checked on the 64 squares holds on the grid. *)
Lemma grid_cases (P : Z → Z → Prop) :
  Forall (λ sq, P sq.1 sq.2) squares →
  ∀ r c, 0 ≤ r < 8 → 0 ≤ c < 8 → P r c.
Proof.
  intros H r c Hr Hc. rewrite Forall_forall in H.
  apply (H (r, c)), elem_of_squares. done.
Qed.

Lemma centre_bonus_range r c :
  0 ≤ r < 8 → 0 ≤ c < 8 → 0 ≤ centre_bonus_at r c ≤ 3.
Proof.
  revert r c. apply (grid_cases (λ r c, 0 ≤ centre_bonus_at r c ≤ 3)).
  repeat constructor; vm_compute; congruence.
Qed.

Lemma centre_bonus_peak r c :
  0 ≤ r < 8 → 0 ≤ c < 8 →
  centre_bonus_at r c = 3 ↔ 3 ≤ r ≤ 4 ∧ 3 ≤ c ≤ 4.
Proof.
  revert r c.
  apply (grid_cases (λ r c, centre_bonus_at r c = 3 ↔ 3 ≤ r ≤ 4 ∧ 3 ≤ c ≤ 4)).
  repeat constructor; cbn [fst snd]; intros; try lia;
    try (vm_compute in *; congruence); vm_compute; reflexivity.
Qed.

Lemma centre_bonus_rim r c :
  0 ≤ r < 8 → 0 ≤ c < 8 →
  r < 2 ∨ 5 < r ∨ c < 2 ∨ 5 < c → centre_bonus_at r c = 0.
Proof.
  revert r c.
  apply (grid_cases (λ r c, r < 2 ∨ 5 < r ∨ c < 2 ∨ 5 < c →
                            centre_bonus_at r c = 0)).
  repeat constructor; cbn [fst snd]; intros; try lia; vm_compute; reflexivity.
Qed.

(** C3.  [evaluate] returns the sum, over the occupied squares, of the
    material value of the piece (Pawn 100, Knight 320, Bishop 330, Rook 500,
    Queen 900, King 20000; added for White, subtracted for Black), of 5 times
    the centre bonus of the square for knights and bishops (added for White,
    subtracted for Black), and of the pawn advancement term (5 * (7 - row)
    added for a White pawn, 5 * row subtracted for a Black pawn).  The centre
    bonus table lies between 0 and 3, is 3 exactly on the four centre squares
    and is 0 on the two outer ranks and files on each side. *)
Theorem evaluate_spec b :
  evaluate b = spec_evaluate b
  ∧ (∀ r c, 0 ≤ r < 8 → 0 ≤ c < 8 →
       0 ≤ centre_bonus_at r c ≤ 3
       ∧ (centre_bonus_at r c = 3 ↔ 3 ≤ r ≤ 4 ∧ 3 ≤ c ≤ 4)
       ∧ (r < 2 ∨ 5 < r ∨ c < 2 ∨ 5 < c → centre_bonus_at r c = 0)).
Proof.
  split; [apply evaluate_eq_spec|].
  intros r c Hr Hc. split_and!.
  - by apply centre_bonus_range.
  - by apply centre_bonus_range.
  - by apply centre_bonus_peak.
  - by apply centre_bonus_rim.
Qed.

Example evaluate_examples :
  evaluate (fen_board (parse_fen "8/8/8/8/8/8/8/8 w")) = 0
  ∧ evaluate (fen_board (parse_fen "8/8/8/8/3N4/8/8/8 w")) = 335
  ∧ evaluate (fen_board (parse_fen "8/8/8/8/3b4/8/8/8 w")) = -345
  ∧ evaluate (fen_board (parse_fen "8/P7/8/8/8/8/8/8 w")) = 130
  ∧ evaluate (fen_board (parse_fen "8/8/8/8/8/8/p7/8 w")) = -130
  ∧ evaluate (fen_board (parse_fen "k7/8/8/8/8/8/8/QR5K w")) = 1400.
Proof. vm_compute. by repeat split. Qed.

(** *** The range of the score *)

Lemma square_score_bound r c pc :
  0 ≤ r < 8 → 0 ≤ centre_bonus_at r c ≤ 3 →
  -20000 ≤ square_score r c pc ≤ 20000.
Proof.
  unfold square_score. generalize (centre_bonus_at r c) as cb.
  intros cb Hr Hc.
  destruct pc as [[] []]; cbn [signed material is_minor pawn_advance]; lia.
Qed.

Lemma Zsum_bound (K : Z) (l : list Z) :
  Forall (λ x, - K ≤ x ≤ K) l →
  - (K * Z.of_nat (length l)) ≤ Zsum l ≤ K * Z.of_nat (length l).
Proof.
  induction 1 as [|x l Hx _ IH]; cbn [Zsum foldr length]; [lia|].
  fold (Zsum l). lia.
Qed.

(** No board scores as low or as high as the initial best score of
    [choose_move]. *)
Lemma evaluate_bound b : -1280000 ≤ evaluate b ≤ 1280000.
Proof.
  rewrite evaluate_eq_spec. unfold spec_evaluate.
  rewrite (Zsum_filter (occupied b)
             (λ sq, match piece_of_char (bget b sq.1 sq.2) with
                    | Some pc => square_score sq.1 sq.2 pc
                    | None => 0
                    end)).
  match goal with |- _ ≤ Zsum ?l ≤ _ =>
    pose proof (Zsum_bound 20000 l) as H end.
  rewrite length_map in H. change (length squares) with 64%nat in H.
  apply H. apply Forall_map, Forall_forall. intros [r c] Hin.
  apply elem_of_squares in Hin as [Hr Hc]. cbn [fst snd].
  destruct (occupied b (r, c)); [|lia].
  destruct (piece_of_char (bget b r c)) as [pc|]; [|lia].
  apply square_score_bound; [done|]. by apply centre_bonus_range.
Qed.

(** ** The tokens of the move list *)

Lemma list_ascii_of_string_app (s1 s2 : string) :
  list_ascii_of_string (String.append s1 s2)
  = list_ascii_of_string s1 ++ list_ascii_of_string s2.
Proof. induction s1 as [|ch s1 IH]; [done|]. simpl. by rewrite IH. Qed.

Lemma c_str_no_NUL s : Forall (λ ch, ch ≠ NUL) (c_str s).
Proof.
  induction s as [|ch s IH]; cbn [c_str]; [constructor|].
  unfold ceq. destruct (Ascii.eqb_spec ch NUL); [constructor|].
  by constructor.
Qed.

Lemma c_str_id s : Forall (λ ch, ch ≠ NUL) s → c_str s = s.
Proof.
  induction 1 as [|ch s Hch _ IH]; cbn [c_str]; [done|].
  unfold ceq. destruct (Ascii.eqb_spec ch NUL); [done|]. by rewrite IH.
Qed.

(** Tokens are non-empty and made of the bytes of the string other than the
    space. *)
Lemma strtok_all_spec (P : ascii → Prop) s cur :
  Forall P s → Forall (λ ch, ch ≠ " " ∧ P ch) cur →
  Forall (λ tok, tok ≠ [] ∧ Forall (λ ch, ch ≠ " " ∧ P ch) tok)
         (strtok_all s cur).
Proof.
  intros Hs. revert cur. induction Hs as [|ch s Hch _ IH]; intros cur Hcur;
    cbn [strtok_all].
  - destruct cur as [|c cur]; [constructor|].
    constructor; [|constructor]. split.
    + cbn [rev]. by destruct (rev cur).
    + apply Forall_forall.
      intros x Hx%list_elem_of_In%in_rev%list_elem_of_In.
      rewrite Forall_forall in Hcur. by apply Hcur.
  - unfold ceq. destruct (Ascii.eqb_spec ch " ") as [->|Hne].
    + destruct cur as [|c cur]; [by apply IH|].
      constructor; [|by apply IH]. split.
      * cbn [rev]. by destruct (rev cur).
      * apply Forall_forall.
        intros x Hx%list_elem_of_In%in_rev%list_elem_of_In.
        rewrite Forall_forall in Hcur. by apply Hcur.
    + apply IH. by constructor.
Qed.

Lemma strtok_all_token t s cur :
  Forall (λ ch, ch ≠ " ") t →
  strtok_all (t ++ s) cur = strtok_all s (rev t ++ cur).
Proof.
  intros Ht. revert cur. induction Ht as [|ch t Hch _ IH]; intros cur; [done|].
  cbn [app strtok_all rev]. unfold ceq.
  destruct (Ascii.eqb_spec ch " "); [done|].
  by rewrite IH, <- app_assoc.
Qed.

Lemma strtok_all_concat toks :
  Forall (λ tok, list_ascii_of_string tok ≠ []
                 ∧ Forall (λ ch, ch ≠ " ") (list_ascii_of_string tok)) toks →
  strtok_all (list_ascii_of_string (String.concat " " toks)) []
  = map list_ascii_of_string toks.
Proof.
  induction 1 as [|tok toks [Hne Htok] Htoks IH]; [done|].
  destruct toks as [|tok' toks].
  - cbn [String.concat map].
    pose proof (strtok_all_token _ [] [] Htok) as H.
    rewrite !app_nil_r in H. rewrite H. cbn [strtok_all].
    destruct (rev (list_ascii_of_string tok)) eqn:E.
    + apply (f_equal (@rev ascii)) in E. rewrite rev_involutive in E. done.
    + by rewrite <- E, rev_involutive.
  - change (String.concat " " (tok :: tok' :: toks))
      with (String.append tok (String " " (String.concat " " (tok' :: toks)))).
    rewrite list_ascii_of_string_app. cbn [list_ascii_of_string].
    rewrite strtok_all_token, app_nil_r by done. cbn [strtok_all].
    change (ceq " " " ") with true. cbv iota.
    destruct (rev (list_ascii_of_string tok)) eqn:E.
    + apply (f_equal (@rev ascii)) in E. rewrite rev_involutive in E. done.
    + rewrite <- E, rev_involutive, IH. done.
Qed.

Lemma move_list_join toks :
  Forall (λ tok, let l := list_ascii_of_string tok in
                 l ≠ [] ∧ (length l ≤ 15)%nat
                 ∧ Forall (λ ch, ch ≠ " " ∧ ch ≠ NUL) l) toks →
  (length toks ≤ 256)%nat →
  (length (list_ascii_of_string (String.concat " " toks)) ≤ 4095)%nat →
  move_list (String.concat " " toks) = toks.
Proof.
  intros Htoks Hcount Hlen. unfold move_list, strncpy.
  assert (Hnul : Forall (λ ch, ch ≠ NUL)
                        (list_ascii_of_string (String.concat " " toks))).
  { clear Hcount Hlen. induction Htoks as [|tok toks (_ & _ & Htok) _ IH];
      [constructor|].
    destruct toks as [|tok' toks].
    - cbn [String.concat]. eapply Forall_impl; [done|]. by intros ch [_ ?].
    - change (String.concat " " (tok :: tok' :: toks))
        with (String.append tok (String " " (String.concat " " (tok' :: toks)))).
      rewrite list_ascii_of_string_app. cbn [list_ascii_of_string].
      apply Forall_app. split.
      + eapply Forall_impl; [done|]. by intros ch [_ ?].
      + by constructor. }
  rewrite (c_str_id _ Hnul). 
  rewrite (take_ge (list_ascii_of_string (String.concat " " toks)) 4095)
    by exact Hlen.
  rewrite strtok_all_concat.
  2: { eapply Forall_impl; [done|]. intros tok (Hne & _ & Hch). split; [done|].
       eapply Forall_impl; [done|]. by intros ch [? _]. }
  rewrite take_ge by (rewrite !length_map; unfold MAX_MOVES; lia).
  rewrite map_map.
  rewrite <- (map_id toks) at 2. apply map_ext_Forall.
  eapply Forall_impl; [done|]. intros tok (_ & Hl & Hch). cbn beta.
  rewrite c_str_id by (eapply Forall_impl; [done|]; by intros ch [_ ?]).
  rewrite take_ge by (unfold MAX_MOVE_LEN; lia).
  apply string_of_list_ascii_of_string.
Qed.

(** ** The move selector *)

Ltac better_lia :=
  unfold better in *;
  destruct (ceq _ "w");
  repeat match goal with
    | H : (_ >? _) = _ |- _ => rewrite Z.gtb_ltb in H
    | H : (_ <? _) = true |- _ => apply Z.ltb_lt in H
    | H : (_ <? _) = false |- _ => apply Z.ltb_ge in H
    | |- (_ >? _) = _ => rewrite Z.gtb_ltb
    | |- (_ <? _) = true => apply Z.ltb_lt
    | |- (_ <? _) = false => apply Z.ltb_ge
    end;
  lia.

Lemma choose_loop_cons b side tok toks i best_idx best_score :
  choose_loop b side (tok :: toks) i best_idx best_score
  = match token_score b side tok with
    | None => choose_loop b side toks (i + 1) best_idx best_score
    | Some score =>
        if better side score best_score
        then choose_loop b side toks (i + 1) i score
        else choose_loop b side toks (i + 1) best_idx best_score
    end.
Proof.
  cbn [choose_loop]. unfold token_score, better.
  destruct (apply_move b tok side) as [[] trial]; cbn [fst snd negb]; [|done].
  by destruct (ceq side "w").
Qed.

(** The loop either keeps the best index it was given, when no remaining
    token that applies improves on the best score, or ends on the first of
    the remaining tokens that reach the best score among those that apply. *)
Lemma choose_loop_spec b side toks i best_idx best_score :
  let k := choose_loop b side toks i best_idx best_score in
  (k = best_idx
   ∧ ∀ (j : nat) tok s, toks !! j = Some tok → token_score b side tok = Some s →
       better side s best_score = false)
  ∨ (∃ (j : nat) tok s,
       toks !! j = Some tok ∧ k = i + Z.of_nat j
       ∧ token_score b side tok = Some s
       ∧ better side s best_score = true
       ∧ (∀ (j' : nat) tok' s', toks !! j' = Some tok' →
            token_score b side tok' = Some s' → better side s' s = false)
       ∧ (∀ (j' : nat) tok' s', (j' < j)%nat → toks !! j' = Some tok' →
            token_score b side tok' = Some s' → better side s s' = true)).
Proof.
  revert i best_idx best_score.
  induction toks as [|tok toks IH]; intros i best_idx best_score k; subst k.
  { left. split; [done|]. intros j tok s Hj. by rewrite lookup_nil in Hj. }
  rewrite choose_loop_cons.
  destruct (token_score b side tok) as [s0|] eqn:Hs0.
  2: { destruct (IH (i + 1) best_idx best_score)
         as [[Hk Hall]|(j & tok' & s & Hj & Hk & Hs & Hb & Hall & Hearly)].
       - left. split; [done|]. intros [|j] tok' s Hj Hs; simpl in Hj.
         + congruence.
         + by apply (Hall j tok').
       - right. exists (S j), tok', s. split_and!; [done|lia|done..| |].
         + intros [|j'] tok'' s' Hj' Hs'; simpl in Hj'; [congruence|].
           by apply (Hall j' tok'').
         + intros [|j'] tok'' s' Hlt Hj' Hs'; simpl in Hj'; [congruence|].
           apply (Hearly j' tok''); [lia|done..]. }
  destruct (better side s0 best_score) eqn:Hb0.
  - destruct (IH (i + 1) i s0)
      as [[Hk Hall]|(j & tok' & s & Hj & Hk & Hs & Hb & Hall & Hearly)].
    + right. exists 0%nat, tok, s0. split_and!; [done|lia|done..| |].
      * intros [|j'] tok'' s' Hj' Hs'; simpl in Hj'.
        -- assert (s' = s0) as -> by congruence. clear -Hb0. better_lia.
        -- by apply (Hall j' tok'').
      * intros j' tok'' s' Hlt. lia.
    + right. exists (S j), tok', s. split_and!; [done|lia|done| | |].
      * clear -Hb Hb0. better_lia.
      * intros [|j'] tok'' s' Hj' Hs'; simpl in Hj'.
        -- assert (s' = s0) as -> by congruence. clear -Hb. better_lia.
        -- by apply (Hall j' tok'').
      * intros [|j'] tok'' s' Hlt Hj' Hs'; simpl in Hj'.
        -- assert (s' = s0) as -> by congruence. done.
        -- apply (Hearly j' tok''); [lia|done..].
  - destruct (IH (i + 1) best_idx best_score)
      as [[Hk Hall]|(j & tok' & s & Hj & Hk & Hs & Hb & Hall & Hearly)].
    + left. split; [done|]. intros [|j] tok' s Hj Hs; simpl in Hj.
      * congruence.
      * by apply (Hall j tok').
    + right. exists (S j), tok', s. split_and!; [done|lia|done..| |].
      * intros [|j'] tok'' s' Hj' Hs'; simpl in Hj'.
        -- assert (s' = s0) as -> by congruence. clear -Hb Hb0. better_lia.
        -- by apply (Hall j' tok'').
      * intros [|j'] tok'' s' Hlt Hj' Hs'; simpl in Hj'.
        -- assert (s' = s0) as -> by congruence. clear -Hb Hb0. better_lia.
        -- apply (Hearly j' tok''); [lia|done..].
Qed.

Lemma token_score_bound b side tok s :
  token_score b side tok = Some s → -1280000 ≤ s ≤ 1280000.
Proof.
  unfold token_score. destruct (apply_move b tok side).1; [|done].
  intros [= <-]. apply evaluate_bound.
Qed.

(** Any evaluation improves on the score the selection starts from. *)
Lemma beats_sentinel side s :
  -1280000 ≤ s ≤ 1280000 → better side s (sentinel side) = true.
Proof. intros Hs. unfold sentinel. better_lia. Qed.

Lemma select_move_spec b side toks :
  let k := select_move b side toks in
  (k = 0 ∧ ∀ tok, tok ∈ toks → token_score b side tok = None)
  ∨ (∃ (j : nat) tok s,
       toks !! j = Some tok ∧ k = Z.of_nat j
       ∧ token_score b side tok = Some s
       ∧ (∀ (j' : nat) tok' s', toks !! j' = Some tok' →
            token_score b side tok' = Some s' → better side s' s = false)
       ∧ (∀ (j' : nat) tok' s', (j' < j)%nat → toks !! j' = Some tok' →
            token_score b side tok' = Some s' → better side s s' = true)).
Proof.
  intros k. subst k. unfold select_move.
  destruct (Z.eqb_spec (Z.of_nat (length toks)) 0) as [Hlen|_].
  { left. split; [done|]. destruct toks; [|done].
    intros tok Hin. by apply elem_of_nil in Hin. }
  destruct (choose_loop_spec b side toks 0 0 (sentinel side))
    as [[Hk Hall]|(j & tok & s & Hj & Hk & Hs & _ & Hall & Hearly)].
  - left. split; [done|]. intros tok [j Hj]%list_elem_of_lookup.
    destruct (token_score b side tok) as [s|] eqn:Hs; [|done].
    pose proof (Hall j tok s Hj Hs) as Hb.
    rewrite beats_sentinel in Hb; [done|].
    by apply token_score_bound in Hs.
  - right. exists j, tok, s. split_and!; [done|lia|done..].
Qed.

(** C1.  Among the tokens of the move list that [apply_move] applies to the
    decoded position, [choose_move] returns the index of one whose evaluation
    is best for the side to move (greatest for 'w', smallest otherwise): it
    is never worse than that of any other token that applies, so of two
    tokens with distinct scores the worse one is not returned; and every
    token that applies and stands earlier in the list scores strictly worse,
    so among the tokens that tie on the best score the earliest is
    returned. *)
Theorem choose_move_best fen moves timeout (j : nat) tok s :
  let pos := parse_fen fen in
  let b := fen_board pos in
  let side := fen_side pos in
  let toks := move_list moves in
  let k := choose_move fen moves timeout in
  toks !! j = Some tok →
  token_score b side tok = Some s →
  ∃ tok_k s_k,
    0 ≤ k ∧ toks !! Z.to_nat k = Some tok_k
    ∧ token_score b side tok_k = Some s_k
    ∧ (if ceq side "w" then s ≤ s_k else s_k ≤ s)
    ∧ (s = s_k → k ≤ Z.of_nat j).
Proof.
  intros pos b side toks k Hj Hs. subst k. unfold choose_move.
  fold pos. fold b side toks.
  destruct (select_move_spec b side toks)
    as [[_ Hnone]|(jk & tok_k & s_k & Hjk & Hk & Hsk & Hall & Hearly)].
  { rewrite Hnone in Hs; [done|]. apply list_elem_of_lookup. eauto. }
  exists tok_k, s_k. rewrite Hk, Nat2Z.id.
  split_and!; [lia|done..| |].
  - specialize (Hall j tok s Hj Hs). clear -Hall. better_lia.
  - intros ->. destruct (decide (jk ≤ j)%nat) as [|Hlt]; [lia|].
    specialize (Hearly j tok s_k ltac:(lia) Hj Hs). clear -Hearly. better_lia.
Qed.

(** C2.  The move list is the list of the tokens of the input: for a string
    made of tokens joined by single spaces (each non-empty, of at most 15
    bytes, free of spaces and NULs; at most 256 of them, at most 4095 bytes
    in all) it is the list of those tokens.  With an empty move list
    [choose_move] returns 0, and so it does when no token of the list
    applies.  As soon as one token applies, the index returned is that of a
    token that applies: a token on which [apply_move] fails is never
    selected.  (Every evaluation lies strictly between the two initial best
    scores, -9999999 and 9999999.) *)
Theorem choose_move_skips_failures fen moves timeout :
  let pos := parse_fen fen in
  let b := fen_board pos in
  let side := fen_side pos in
  let toks := move_list moves in
  let k := choose_move fen moves timeout in
  (∀ l, Forall (λ tok, let s := list_ascii_of_string tok in
                       s ≠ [] ∧ (length s ≤ 15)%nat
                       ∧ Forall (λ ch, ch ≠ " " ∧ ch ≠ NUL) s) l →
        (length l ≤ 256)%nat →
        (length (list_ascii_of_string moves) ≤ 4095)%nat →
        moves = String.concat " " l → toks = l)
  ∧ (toks = [] → k = 0)
  ∧ ((∀ tok, tok ∈ toks → (apply_move b tok side).1 = false) → k = 0)
  ∧ ((∃ tok, tok ∈ toks ∧ (apply_move b tok side).1 = true) →
     ∃ tok_k, 0 ≤ k ∧ toks !! Z.to_nat k = Some tok_k
              ∧ (apply_move b tok_k side).1 = true)
  ∧ (∀ b' : board, -9999999 < evaluate b' < 9999999).
Proof.
  intros pos b side toks k. subst k. unfold choose_move.
  fold pos. fold b side toks.
  assert (Hscore : ∀ tok, token_score b side tok = None
                          ↔ (apply_move b tok side).1 = false).
  { intros tok. unfold token_score. by destruct (apply_move b tok side).1. }
  split_and!.
  - intros l Hl Hcount Hlen ->. by apply move_list_join.
  - by intros ->.
  - intros Hfail.
    destruct (select_move_spec b side toks)
      as [[Hk _]|(jk & tok_k & s_k & Hjk & _ & Hsk & _)]; [done|].
    assert (token_score b side tok_k = None) as Hnone; [|congruence].
    apply Hscore, Hfail, list_elem_of_lookup. eauto.
  - intros (tok & Hin & Hok).
    destruct (select_move_spec b side toks)
      as [[_ Hnone]|(jk & tok_k & s_k & Hjk & Hk & Hsk & _)].
    + apply Hnone, Hscore in Hin. congruence.
    + exists tok_k. rewrite Hk, Nat2Z.id. split_and!; [lia|done|].
      destruct (apply_move b tok_k side).1 eqn:E; [done|].
      apply Hscore in E. congruence.
  - intros b'. pose proof (evaluate_bound b'). lia.
Qed.

(** From the initial position, with "zz" and "Qh9" failing and "a3"
    applying. *)
Lemma choose_move_skips_failures_witness :
  let fen := "rnbqkbnr/pppppppp/8/8/8/8/PPPPPPPP/RNBQKBNR w KQkq - 0 1"%string in
  let b := fen_board (parse_fen fen) in
  move_list "zz a3 Qh9" = ["zz"; "a3"; "Qh9"]%string
  ∧ (∃ tok_k,
       ["zz"; "a3"; "Qh9"]%string !! Z.to_nat (choose_move fen "zz a3 Qh9" 0)
       = Some tok_k
       ∧ (apply_move b tok_k "w").1 = true)
  ∧ choose_move fen "zz Qh9" 0 = 0.
Proof.
  intros fen b.
  pose proof (choose_move_skips_failures fen "zz a3 Qh9" 0) as H1.
  pose proof (choose_move_skips_failures fen "zz Qh9" 0) as H2.
  cbv zeta in H1, H2.
  destruct H1 as (Htoks & _ & _ & Hsome & _).
  destruct H2 as (Htoks' & _ & Hnone & _ & _).
  assert (Hl : move_list "zz a3 Qh9" = ["zz"; "a3"; "Qh9"]%string).
  { apply Htoks; [|simpl; lia|simpl; lia|reflexivity].
    repeat constructor; cbn; (discriminate || lia). }
  assert (Hl' : move_list "zz Qh9" = ["zz"; "Qh9"]%string).
  { apply Htoks'; [|simpl; lia|simpl; lia|reflexivity].
    repeat constructor; cbn; (discriminate || lia). }
  rewrite Hl in Hsome. rewrite Hl' in Hnone.
  split_and!.
  - exact Hl.
  - destruct Hsome as (tok_k & _ & Hk & Hok).
    + exists "a3"%string. split; [|vm_compute; reflexivity].
      apply list_elem_of_In. right. left. reflexivity.
    + exists tok_k. split; assumption.
  - apply Hnone. intros tok Hin.
    apply list_elem_of_In in Hin as [<-|[<-|[]]]; vm_compute; reflexivity.
Defined.

(** Of two tokens that apply, the one with the strictly worse score is not
    the one returned. *)
Lemma choose_move_not_the_worse fen moves timeout (i j : nat) tok_i tok_j s_i s_j :
  let pos := parse_fen fen in
  let b := fen_board pos in
  let side := fen_side pos in
  let toks := move_list moves in
  toks !! i = Some tok_i → toks !! j = Some tok_j →
  token_score b side tok_i = Some s_i → token_score b side tok_j = Some s_j →
  better side s_i s_j = true →
  choose_move fen moves timeout ≠ Z.of_nat j.
Proof.
  intros pos b side toks Hi Hj Hsi Hsj Hb. unfold choose_move.
  fold pos. fold b side toks.
  destruct (select_move_spec b side toks)
    as [[_ Hnone]|(jk & tok_k & s_k & Hjk & Hk & Hsk & Hall & _)].
  { rewrite Hnone in Hsi; [done|]. apply list_elem_of_lookup. eauto. }
  rewrite Hk. intros Heq. assert (jk = j) as -> by lia.
  assert (s_k = s_j) as -> by congruence.
  rewrite (Hall i tok_i s_i Hi Hsi) in Hb. done.
Qed.

(** The initial position with the twenty opening moves: index 1 ("a4") is
    returned, the first of the moves that score 10.  (A one-square advance on
    the files b to h scores -100: scanning row 6 from file a, [find_piece]
    first meets the pawn one file to the left, which passes the diagonal
    rule, and [apply_move] then takes the en-passant branch.) *)
Example choose_move_opening :
  let fen := "rnbqkbnr/pppppppp/8/8/8/8/PPPPPPPP/RNBQKBNR w KQkq - 0 1"%string in
  let moves :=
    "a3 a4 b3 b4 c3 c4 d3 d4 e3 e4 f3 f4 g3 g4 h3 h4 Na3 Nc3 Nf3 Nh3"%string in
  choose_move fen moves 3 = 1
  ∧ map (token_score (fen_board (parse_fen fen)) "w") (move_list moves)
    = map Some [5; 10; -100; 10; -100; 10; -100; 10; -100; 10; -100; 10;
                -100; 10; -100; 10; 0; 5; 5; 0].
Proof. vm_compute. by split. Qed.

(** Two tokens that apply with distinct scores, the better one second, then
    a tie: index 1 is returned. *)
Lemma choose_move_best_witness :
  let fen := "rnbqkbnr/pppppppp/8/8/8/8/PPPPPPPP/RNBQKBNR w KQkq - 0 1"%string in
  ∃ tok_k s_k,
    0 ≤ choose_move fen "a3 a4 h4" 3
    ∧ move_list "a3 a4 h4" !! Z.to_nat (choose_move fen "a3 a4 h4" 3)
      = Some tok_k
    ∧ token_score (fen_board (parse_fen fen)) (fen_side (parse_fen fen)) tok_k
      = Some s_k
    ∧ (if ceq (fen_side (parse_fen fen)) "w" then 10 ≤ s_k else s_k ≤ 10)
    ∧ (10 = s_k → choose_move fen "a3 a4 h4" 3 ≤ Z.of_nat 2).
Proof.
  intros fen.
  exact (choose_move_best fen "a3 a4 h4" 3 2 "h4" 10 eq_refl eq_refl).
Defined.

Example choose_move_examples :
  let fen := "rnbqkbnr/pppppppp/8/8/8/8/PPPPPPPP/RNBQKBNR w KQkq - 0 1"%string in
  let black := "rnbqkbnr/pppppppp/8/8/4P3/8/PPPP1PPP/RNBQKBNR b KQkq - 0 1"%string in
  choose_move fen "a3 a4 h4" 3 = 1
  ∧ choose_move fen "Qh9 zz a3 e5" 3 = 2
  ∧ choose_move fen "Qh9 zz e5" 3 = 0
  ∧ choose_move fen "" 3 = 0
  ∧ choose_move black "a6 a5 h5" 3 = 1.
Proof. vm_compute. by repeat split. Qed.

(** ** The bounded loops run to their end *)

(** Steps a sliding loop can still take before it leaves the board. *)
Lemma slide_fuel fuel extra b dest_row dest_col dr dc sr sc :
  (dr, dc) ≠ (0, 0) → -1 ≤ dr ≤ 1 → -1 ≤ dc ≤ 1 →
  (if dr =? 1 then 8 - sr else if dr =? -1 then sr + 1
   else if dc =? 1 then 8 - sc else sc + 1) ≤ Z.of_nat fuel →
  slide (fuel + extra) b dest_row dest_col dr dc sr sc
  = slide fuel b dest_row dest_col dr dc sr sc.
Proof.
  intros Hd Hdr Hdc. revert sr sc.
  induction fuel as [|fuel IH]; intros sr sc Hm.
  - cbn [Nat.add slide]. destruct extra as [|extra]; cbn [slide]; [done|].
    destruct ((0 <=? sr) && (sr <? ROWS) && (0 <=? sc) && (sc <? COLS)) eqn:E;
      [|done].
    exfalso. unfold ROWS, COLS in E. bool_to_prop E.
    assert (dr ≠ 0 ∨ dc ≠ 0) by (destruct (decide (dr = 0)); [right|left];
                                  [intros ->; by subst|done]).
    destruct (Z.eqb_spec dr 1), (Z.eqb_spec dr (-1)),
             (Z.eqb_spec dc 1); lia.
  - cbn [Nat.add slide].
    destruct ((0 <=? sr) && (sr <? ROWS) && (0 <=? sc) && (sc <? COLS)) eqn:E;
      [|done].
    destruct ((sr =? dest_row) && (sc =? dest_col)); [done|].
    destruct (negb _); [done|].
    apply IH.
    assert (dr ≠ 0 ∨ dc ≠ 0) by (destruct (decide (dr = 0)); [right|left];
                                  [intros ->; by subst|done]).
    unfold ROWS, COLS in E. bool_to_prop E.
    destruct (Z.eqb_spec dr 1), (Z.eqb_spec dr (-1)),
             (Z.eqb_spec dc 1); lia.
Qed.

(** From a square of the board, eight iterations are as good as any larger
    number: the [while] loops of the sliding pieces always end. *)
Lemma slide_eight extra b dest_row dest_col dr dc r c :
  (dr, dc) ≠ (0, 0) → -1 ≤ dr ≤ 1 → -1 ≤ dc ≤ 1 →
  0 ≤ r < 8 → 0 ≤ c < 8 →
  slide (8 + extra) b dest_row dest_col dr dc (r + dr) (c + dc)
  = slide 8 b dest_row dest_col dr dc (r + dr) (c + dc).
Proof.
  intros Hd Hdr Hdc Hr Hc. apply slide_fuel; [done..|].
  assert (dr ≠ 0 ∨ dc ≠ 0) by (destruct (decide (dr = 0)); [right|left];
                                [intros ->; by subst|done]).
  destruct (Z.eqb_spec dr 1), (Z.eqb_spec dr (-1)), (Z.eqb_spec dc 1); lia.
Qed.

(** The stripping loop stops because its test fails, never for lack of
    iterations. *)
Lemma strip_check_done fuel buf :
  (length buf ≤ fuel)%nat →
  let r := strip_check fuel buf in
  (strlen r >? 0)
  && (ceq (char_at r (strlen r - 1)) "+" || ceq (char_at r (strlen r - 1)) "#")
  = false.
Proof.
  revert buf. induction fuel as [|fuel IH]; intros buf Hlen r; subst r.
  - destruct buf; [done|simpl in Hlen; lia].
  - cbn [strip_check].
    destruct ((strlen buf >? 0) && _) eqn:E; [|done].
    apply IH. rewrite length_take. unfold strlen in *.
    apply andb_true_iff in E as [E _]. rewrite Z.gtb_ltb in E.
    apply Z.ltb_lt in E. lia.
Qed.

(** * Further properties of the code *)

(** ** Piece values *)

(** X1.  [piece_value] is non-zero exactly on the twelve piece letters,
    positive on the upper-case ones and negative on the lower-case ones, and
    a letter and its other case have opposite values. *)
Theorem piece_value_colours ch :
  (piece_value ch ≠ 0 ↔ is_piece_letter ch = true)
  ∧ (0 < piece_value ch ↔ is_piece_letter ch = true ∧ isupper ch = true)
  ∧ (piece_value ch < 0 ↔ is_piece_letter ch = true ∧ islower ch = true)
  ∧ piece_value (swap_case ch) = - piece_value ch.
Proof.
  destruct ch as [[] [] [] [] [] [] [] []]; vm_compute;
    intuition (discriminate || congruence).
Qed.

(** ** Evaluation: one cell at a time *)

Lemma cell_score_spec b row col :
  cell_score row col (bget b row col)
  = (if occupied b (row, col) then
       match piece_of_char (bget b row col) with
       | Some pc => square_score row col pc
       | None => 0
       end
     else 0).
Proof.
  unfold cell_score, occupied. cbn [fst snd].
  by destruct (ceq (bget b row col) ".").
Qed.

(** The score is the sum of the cell scores of the 64 squares. *)
Lemma evaluate_cells b :
  evaluate b = Zsum (map (λ sq, cell_score sq.1 sq.2 (bget b sq.1 sq.2)) squares).
Proof.
  rewrite evaluate_eq_spec. unfold spec_evaluate.
  rewrite (Zsum_filter (occupied b)
             (λ sq, match piece_of_char (bget b sq.1 sq.2) with
                    | Some pc => square_score sq.1 sq.2 pc
                    | None => 0
                    end)).
  f_equal. apply map_ext. intros [r c]. cbn [fst snd].
  by rewrite cell_score_spec.
Qed.

Lemma Zsum_change {A} `{EqDecision A} (f g : A → Z) (l : list A) (x : A) :
  NoDup l → x ∈ l → (∀ y, y ≠ x → f y = g y) →
  Zsum (map f l) = Zsum (map g l) + f x - g x.
Proof.
  intros Hnd Hin Hfg. induction l as [|a l IH]; [by apply elem_of_nil in Hin|].
  apply NoDup_cons in Hnd as [Ha Hnd]. cbn [map Zsum foldr].
  fold (Zsum (map f l)). fold (Zsum (map g l)).
  destruct (decide (a = x)) as [->|Hne].
  - assert (Zsum (map f l) = Zsum (map g l)) as ->; [|lia].
    f_equal. apply map_ext_in. intros y Hy%list_elem_of_In.
    apply Hfg. intros ->. done.
  - apply elem_of_cons in Hin as [->|Hin]; [done|].
    rewrite IH, (Hfg a) by done. lia.
Qed.

Lemma squares_NoDup : NoDup squares.
Proof. apply (bool_decide_unpack _). by vm_compute. Qed.

Lemma evaluate_write b r c x :
  board_wf b → 0 ≤ r < 8 → 0 ≤ c < 8 →
  evaluate (bset b r c x)
  = evaluate b + cell_score r c x - cell_score r c (bget b r c).
Proof.
  intros Hwf Hr Hc. rewrite !evaluate_cells.
  rewrite (Zsum_change
             (λ sq, cell_score sq.1 sq.2 (bget (bset b r c x) sq.1 sq.2))
             (λ sq, cell_score sq.1 sq.2 (bget b sq.1 sq.2))
             squares (r, c)).
  - cbn [fst snd]. rewrite bget_bset_eq; [lia|done|]. apply in_grid_spec. lia.
  - apply squares_NoDup.
  - by apply elem_of_squares.
  - intros [r' c'] Hne. cbn [fst snd]. rewrite bget_bset_ne; [done|].
    intros E. by apply Hne.
Qed.

(** X2.  Writing one cell of the board changes the evaluation by the score
    of the new content minus the score of the old content of that cell:
    every square contributes on its own. *)
Theorem evaluate_bset b r c x :
  board_wf b → 0 ≤ r < 8 → 0 ≤ c < 8 →
  evaluate (bset b r c x)
  = evaluate b + cell_score r c x - cell_score r c (bget b r c).
Proof. apply evaluate_write. Qed.

Lemma evaluate_bset_witness :
  evaluate (bset empty_board 4 3 "N") = evaluate empty_board + 335 - 0.
Proof.
  exact (evaluate_bset empty_board 4 3 "N" empty_board_wf
           ltac:(lia) ltac:(lia)).
Defined.

(** ** Evaluation: the two colours *)

Lemma mirror_wf b : board_wf b → board_wf (mirror b).
Proof.
  intros [Hlen Hrows]. unfold mirror. split.
  - by rewrite length_map, length_reverse.
  - apply Forall_map, Forall_reverse. eapply Forall_impl; [done|].
    intros row Hrow. simpl. by rewrite length_map.
Qed.

Lemma bget_mirror b r c :
  board_wf b → 0 ≤ r < 8 → 0 ≤ c < 8 →
  bget (mirror b) r c = swap_case (bget b (7 - r) c).
Proof.
  intros [Hlen Hrows] Hr Hc. unfold bget, mirror.
  assert (in_grid r c = true) as -> by (apply in_grid_spec; lia).
  assert (in_grid (7 - r) c = true) as -> by (apply in_grid_spec; lia).
  rewrite list_lookup_fmap, reverse_lookup by lia.
  replace (length b - S (Z.to_nat r))%nat with (Z.to_nat (7 - r)) by lia.
  destruct (lookup_lt_is_Some_2 b (Z.to_nat (7 - r))) as [row Hrow]; [lia|].
  rewrite Hrow. simpl.
  rewrite Forall_lookup in Hrows. specialize (Hrows _ _ Hrow).
  rewrite !nth_lookup, list_lookup_fmap.
  destruct (lookup_lt_is_Some_2 row (Z.to_nat c)) as [x Hx]; [lia|].
  by rewrite Hx.
Qed.

Lemma centre_bonus_flip r c :
  0 ≤ r < 8 → 0 ≤ c < 8 → centre_bonus_at (7 - r) c = centre_bonus_at r c.
Proof.
  revert r c.
  apply (grid_cases (λ r c, centre_bonus_at (7 - r) c = centre_bonus_at r c)).
  repeat constructor.
Qed.

Lemma cell_score_swap r c ch :
  0 ≤ r < 8 → 0 ≤ c < 8 →
  cell_score r c (swap_case ch) = - cell_score (7 - r) c ch.
Proof.
  intros Hr Hc. unfold cell_score, square_score.
  rewrite (centre_bonus_flip r c) by done.
  generalize (centre_bonus_at r c) as cb. intros cb.
  destruct ch as [[] [] [] [] [] [] [] []];
    repeat match goal with
    | |- context [swap_case ?x] =>
        let v := eval vm_compute in (swap_case x) in
        change (swap_case x) with v
    end;
    repeat match goal with
    | |- context [piece_of_char ?x] =>
        let v := eval vm_compute in (piece_of_char x) in
        change (piece_of_char x) with v
    end;
    repeat match goal with
    | |- context [ceq ?x ?y] =>
        let v := eval vm_compute in (ceq x y) in
        change (ceq x y) with v
    end;
    cbn [signed material is_minor pawn_advance]; lia.
Qed.

Lemma Zsum_rows_flip (F : Z → Z) :
  Zsum (map F (seqZ 0 ROWS)) = Zsum (map (λ r, F (7 - r)) (seqZ 0 ROWS)).
Proof.
  change (seqZ 0 ROWS) with [0; 1; 2; 3; 4; 5; 6; 7].
  cbn [map Zsum foldr].
  change (7 - 0) with 7. change (7 - 1) with 6. change (7 - 2) with 5.
  change (7 - 3) with 4. change (7 - 4) with 3. change (7 - 5) with 2.
  change (7 - 6) with 1. change (7 - 7) with 0. lia.
Qed.

Lemma Zsum_opp {A} (f g : A → Z) (l : list A) :
  Forall (λ x, f x = - g x) l → Zsum (map f l) = - Zsum (map g l).
Proof.
  induction 1 as [|x l Hx _ IH]; [done|].
  cbn [map]. change (f x + Zsum (map f l) = - (g x + Zsum (map g l))). lia.
Qed.

(** X3.  The evaluation is colour-symmetric: on the mirrored position (ranks
    reversed, every piece in the other colour) it is the opposite number. *)
Theorem evaluate_mirror b :
  board_wf b → evaluate (mirror b) = - evaluate b.
Proof.
  intros Hwf. rewrite !evaluate_cells, !Zsum_squares. cbn [fst snd].
  rewrite (Zsum_rows_flip
    (λ r, Zsum (map (λ c, cell_score r c (bget b r c)) (seqZ 0 COLS)))).
  apply Zsum_opp, Forall_forall. intros r Hr%elem_of_seqZ. unfold ROWS in Hr.
  apply Zsum_opp, Forall_forall. intros c Hc%elem_of_seqZ. unfold COLS in Hc.
  rewrite bget_mirror, cell_score_swap by (done || lia). done.
Qed.

Lemma evaluate_mirror_witness :
  let b := fen_board (parse_fen "r1bqkbnr/pppp1ppp/2n5/4p3/4P3/5N2/PPPP1PPP/RNBQKB1R w") in
  evaluate (mirror b) = - evaluate b.
Proof.
  intros b. apply (evaluate_mirror b). apply parse_fen_wf.
Defined.

(** ** Decoding: the fields after the placement *)

Lemma placement_field_stop p q :
  placement_field p = p → placement_field (p ++ " " :: q) = p.
Proof.
  induction p as [|ch p IH]; [done|]. cbn [placement_field app].
  destruct (ceq ch NUL || ceq ch " "); [done|].
  intros [= H]. by rewrite (IH H).
Qed.

Lemma fen_placement_stop p q row col b :
  placement_field p = p →
  (fen_placement (p ++ " " :: q) row col b).1 = (fen_placement p row col b).1.
Proof.
  revert row col b. induction p as [|ch p IH]; intros row col b; [done|].
  cbn [placement_field app fen_placement].
  destruct (ceq ch NUL || ceq ch " "); [done|].
  intros [= H].
  destruct (ceq ch "/"); [by apply IH|].
  destruct (between "1" "8" ch); by apply IH.
Qed.

(** X4.  Of a string made of a placement field, one space, a character and
    anything after it, [parse_fen] reads the board from the placement field
    alone and returns that character as the side to move: the remaining
    fields (castling rights, en-passant square, counters) are never read. *)
Theorem parse_fen_fields (pf rest : string) (sd : ascii) :
  placement_field (list_ascii_of_string pf) = list_ascii_of_string pf →
  parse_fen (String.append pf (String " " (String sd rest)))
  = FenResult true (fen_board (parse_fen pf)) sd.
Proof.
  intros Hpf. rewrite !parse_fen_unfold. cbn [fen_board].
  rewrite list_ascii_of_string_app. cbn [list_ascii_of_string].
  rewrite fen_placement_stop, placement_field_stop by done.
  by rewrite drop_app_length.
Qed.

Lemma parse_fen_fields_witness :
  parse_fen "rnbqkbnr/pppppppp/8/8/8/8/PPPPPPPP/RNBQKBNR b KQkq - 0 1"
  = FenResult true
      (fen_board (parse_fen "rnbqkbnr/pppppppp/8/8/8/8/PPPPPPPP/RNBQKBNR")) "b".
Proof.
  exact (parse_fen_fields "rnbqkbnr/pppppppp/8/8/8/8/PPPPPPPP/RNBQKBNR"
           " KQkq - 0 1" "b" eq_refl).
Defined.

(** ** Splitting the move list *)

(** X5.  The move list holds at most 256 tokens; each of them is non-empty,
    at most 15 bytes long, and contains neither a space nor a NUL. *)
Theorem move_list_tokens moves :
  (length (move_list moves) ≤ 256)%nat
  ∧ Forall (λ tok, let l := list_ascii_of_string tok in
                   l ≠ [] ∧ (length l ≤ 15)%nat
                   ∧ Forall (λ ch, ch ≠ " " ∧ ch ≠ NUL) l)
           (move_list moves).
Proof.
  unfold move_list. split.
  { rewrite length_take. unfold MAX_MOVES. lia. }
  apply Forall_take, Forall_map.
  eapply Forall_impl.
  { apply (strtok_all_spec (λ ch, ch ≠ NUL)); [|constructor].
    unfold strncpy. apply Forall_take, c_str_no_NUL. }
  intros tok [Hne Htok]. cbn zeta.
  rewrite list_ascii_of_string_of_list_ascii. unfold strncpy.
  assert (c_str tok = tok) as ->.
  { apply c_str_id. eapply Forall_impl; [done|]. by intros ch [_ ?]. }
  split_and!.
  - destruct tok; [done|]. done.
  - rewrite length_take. unfold MAX_MOVE_LEN. lia.
  - by apply Forall_take.
Qed.

(** X6.  Joining tokens with single spaces and splitting the result gives
    the tokens back, provided each token is non-empty, free of spaces and
    NULs and at most 15 bytes long, there are at most 256 of them and the
    joined string has at most 4095 bytes. *)
Theorem move_list_concat toks :
  Forall (λ tok, let l := list_ascii_of_string tok in
                 l ≠ [] ∧ (length l ≤ 15)%nat
                 ∧ Forall (λ ch, ch ≠ " " ∧ ch ≠ NUL) l) toks →
  (length toks ≤ 256)%nat →
  (length (list_ascii_of_string (String.concat " " toks)) ≤ 4095)%nat →
  move_list (String.concat " " toks) = toks.
Proof. apply move_list_join. Qed.

Lemma move_list_concat_witness :
  move_list (String.concat " " ["e4"; "Nf3"; "O-O"; "exd8=Q+"]%string)
  = ["e4"; "Nf3"; "O-O"; "exd8=Q+"]%string.
Proof.
  apply move_list_concat.
  - repeat constructor; cbn; (discriminate || lia).
  - simpl. lia.
  - simpl. lia.
Defined.

(** ** Check and mate suffixes *)

Lemma c_str_snoc s x :
  x ≠ NUL →
  c_str (s ++ [x]) = if bool_decide (Forall (λ ch, ch ≠ NUL) s)
                     then c_str s ++ [x] else c_str s.
Proof.
  intros Hx. induction s as [|ch s IH].
  - cbn [app c_str]. unfold ceq. by destruct (Ascii.eqb_spec x NUL).
  - cbn [app c_str]. unfold ceq. destruct (Ascii.eqb_spec ch NUL) as [->|Hne].
    + rewrite bool_decide_eq_false_2; [done|]. by intros [? _]%Forall_cons.
    + rewrite IH. case_bool_decide as H1.
      * rewrite bool_decide_eq_true_2; [done|]. by constructor.
      * rewrite bool_decide_eq_false_2; [done|]. by intros [_ ?]%Forall_cons.
Qed.

Lemma strip_check_suffix tok x :
  x = "+" ∨ x = "#" →
  strip_check (length (tok ++ [x])) (tok ++ [x]) = strip_check (length tok) tok.
Proof.
  intros Hx. rewrite length_app. cbn [length]. rewrite Nat.add_1_r.
  cbn [strip_check]. unfold strlen. rewrite length_app. cbn [length].
  unfold char_at.
  replace (Z.of_nat (length tok + 1) - 1) with (Z.of_nat (length tok)) by lia.
  assert ((Z.of_nat (length tok) <? 0) = false) as ->
    by (apply Z.ltb_ge; lia).
  rewrite Nat2Z.id, app_nth2, Nat.sub_diag by lia. cbn [nth].
  assert ((Z.of_nat (length tok + 1) >? 0) = true) as ->
    by (rewrite Z.gtb_ltb; apply Z.ltb_lt; lia).
  assert (ceq x "+" || ceq x "#" = true) as ->
    by (destruct Hx as [-> | ->]; reflexivity).
  cbn [andb]. by rewrite take_app_length.
Qed.

Lemma parse_move_suffix tok x side :
  x = "+" ∨ x = "#" → Forall (λ ch, ch ≠ NUL) tok → (length tok < 15)%nat →
  parse_move (tok ++ [x]) side = parse_move tok side.
Proof.
  intros Hx Hnul Hlen. unfold parse_move, strncpy.
  rewrite c_str_snoc by (destruct Hx as [-> | ->]; done).
  rewrite bool_decide_eq_true_2 by done.
  rewrite (c_str_id tok) by done.
  rewrite (take_ge (tok ++ [x]))
    by (rewrite length_app; unfold MAX_MOVE_LEN; simpl; lia).
  rewrite (take_ge tok) by (unfold MAX_MOVE_LEN; simpl; lia).
  rewrite (strip_check_suffix tok x Hx). reflexivity.
Qed.

(** X8.  A trailing '+' or '#' does not change what a move does: if the
    token (free of NULs, at most 14 bytes long) is not itself a castling
    token that already carries a suffix, then [apply_move] returns the same
    result and the same board with and without the suffix. *)
Theorem apply_move_suffix b (move : string) (x : ascii) side :
  x = "+" ∨ x = "#" →
  Forall (λ ch, ch ≠ NUL) (list_ascii_of_string move) →
  (length (list_ascii_of_string move) < 15)%nat →
  move ∉ ["O-O+"; "O-O#"; "O-O-O+"; "O-O-O#"]%string →
  apply_move b (String.append move (String x "")) side = apply_move b move side.
Proof.
  intros Hx Hnul Hlen Hnot.
  assert (Hxn : x ≠ NUL) by (destruct Hx as [-> | ->]; done).
  destruct (decide (move ∈ ["O-O"; "O-O-O"]%string)) as [Hin|Hplain].
  { repeat (apply elem_of_cons in Hin as [->|Hin]);
      try (by apply elem_of_nil in Hin);
      destruct Hx as [-> | ->]; reflexivity. }
  unfold apply_move.
  rewrite list_ascii_of_string_app. cbn [list_ascii_of_string].
  rewrite c_str_snoc by done. rewrite bool_decide_eq_true_2 by done.
  rewrite (c_str_id (list_ascii_of_string move)) by done.
  set (tok := list_ascii_of_string move) in *.
  assert (Hmove : ∀ lit : string, tok = list_ascii_of_string lit → move = lit).
  { intros lit E. subst tok.
    by rewrite <- (string_of_list_ascii_of_string move), E,
                  string_of_list_ascii_of_string. }
  assert (Hno : ∀ t, Forall (λ ch, ch ≠ NUL) t →
            is_castle_short t = false ∧ is_castle_long t = false
            ∨ t ∈ map list_ascii_of_string
                  ["O-O"; "O-O+"; "O-O#"; "O-O-O"; "O-O-O+"; "O-O-O#"]%string).
  { intros t Ht. unfold is_castle_short, is_castle_long, streq.
    rewrite (c_str_id t Ht).
    repeat case_bool_decide; simplify_eq; cbn [orb];
      first [by left | right; apply list_elem_of_In; simpl; tauto]. }
  assert (Htok : is_castle_short tok = false ∧ is_castle_long tok = false).
  { destruct (Hno tok Hnul) as [?|Hin]; [done|]. exfalso.
    apply list_elem_of_fmap in Hin as (lit & E & Hin). apply Hmove in E as ->.
    repeat (apply elem_of_cons in Hin as [->|Hin]);
      try (by apply elem_of_nil in Hin);
      first [ by (apply Hplain; apply list_elem_of_In; simpl; tauto)
            | by (apply Hnot; apply list_elem_of_In; simpl; tauto) ]. }
  assert (Htokx : is_castle_short (tok ++ [x]) = false
                  ∧ is_castle_long (tok ++ [x]) = false).
  { destruct (Hno (tok ++ [x])) as [?|Hin]; [|done|].
    { apply Forall_app. split; [done|by constructor]. }
    exfalso. apply list_elem_of_fmap in Hin as (lit & E & Hin).
    repeat (apply elem_of_cons in Hin as [->|Hin]);
      try (by apply elem_of_nil in Hin); cbn in E.
    - apply (app_inj_tail tok (list_ascii_of_string "O-") x "O") in E as [_ ->].
      by destruct Hx.
    - apply (app_inj_tail tok (list_ascii_of_string "O-O")) in E as [E _].
      apply Hmove in E. apply Hplain. subst. apply list_elem_of_In. simpl. tauto.
    - apply (app_inj_tail tok (list_ascii_of_string "O-O")) in E as [E _].
      apply Hmove in E. apply Hplain. subst. apply list_elem_of_In. simpl. tauto.
    - apply (app_inj_tail tok (list_ascii_of_string "O-O-") x "O") in E as [_ ->].
      by destruct Hx.
    - apply (app_inj_tail tok (list_ascii_of_string "O-O-O")) in E as [E _].
      apply Hmove in E. apply Hplain. subst. apply list_elem_of_In. simpl. tauto.
    - apply (app_inj_tail tok (list_ascii_of_string "O-O-O")) in E as [E _].
      apply Hmove in E. apply Hplain. subst. apply list_elem_of_In. simpl. tauto. }
  destruct Htok as [-> ->], Htokx as [-> ->].
  by rewrite parse_move_suffix.
Qed.

Lemma apply_move_suffix_witness :
  let b := fen_board (parse_fen "rnbqkbnr/pppppppp/8/8/8/8/PPPPPPPP/RNBQKBNR w") in
  apply_move b "Nf3+" "w" = apply_move b "Nf3" "w".
Proof.
  intros b.
  apply (apply_move_suffix b "Nf3" "+" "w").
  - by left.
  - repeat constructor; discriminate.
  - simpl. lia.
  - intros H%list_elem_of_In. simpl in H. intuition discriminate.
Defined.

(** ** The board after a move *)

(** X10.  A move that is not castling writes at most three cells.  The
    destination receives the moving piece, or the promotion letter in the
    case of the side; the source, unless it is the destination itself, is
    left empty; and apart from the cell on the source's row and the
    destination's column every other cell keeps its content.  That cell too
    is kept unless the piece is a pawn that changes file onto an empty
    destination. *)
Theorem apply_move_cells b move side m src_row src_col :
  board_wf b →
  parse_move (c_str (list_ascii_of_string move)) side = Some m →
  find_piece b (mv_piece m) (mv_dest_row m) (mv_dest_col m)
             (mv_src_row_hint m) (mv_src_col_hint m)
    = Some (src_row, src_col) →
  let b' := (apply_move b move side).2 in
  bget b src_row src_col = mv_piece m
  ∧ bget b' (mv_dest_row m) (mv_dest_col m)
    = (if ceq (mv_promote_to m) NUL then mv_piece m
       else if ceq side "w" then toupper (mv_promote_to m)
       else tolower (mv_promote_to m))
  ∧ ((src_row, src_col) ≠ (mv_dest_row m, mv_dest_col m) →
     bget b' src_row src_col = ".")
  ∧ (∀ r c, (r, c) ≠ (src_row, src_col) →
            (r, c) ≠ (mv_dest_row m, mv_dest_col m) →
            (r, c) ≠ (src_row, mv_dest_col m) →
            bget b' r c = bget b r c)
  ∧ (¬ (toupper (mv_piece m) = "P" ∧ src_col ≠ mv_dest_col m
        ∧ bget b (mv_dest_row m) (mv_dest_col m) = ".") →
     ∀ r c, (r, c) ≠ (src_row, src_col) →
            (r, c) ≠ (mv_dest_row m, mv_dest_col m) →
            bget b' r c = bget b r c).
Proof.
  intros Hwf Hm Hf b'. subst b'.
  rewrite (apply_move_performed _ _ _ _ _ _ Hm Hf). cbn [snd].
  pose proof (parse_move_dest _ _ _ Hm) as [Hdr Hdc].
  apply find_piece_Some in Hf as ([Hsr Hsc] & Hpiece & _).
  split; [done|]. unfold perform_move.
  set (ep := ceq (toupper (mv_piece m)) "P" && negb (src_col =? mv_dest_col m)
             && ceq (bget b (mv_dest_row m) (mv_dest_col m)) ".").
  assert (Hwf' : board_wf (if ep then bset b src_row (mv_dest_col m) "." else b))
    by (destruct ep; board_wf_tac).
  assert (Hep : ep = true → toupper (mv_piece m) = "P"
                ∧ src_col ≠ mv_dest_col m
                ∧ bget b (mv_dest_row m) (mv_dest_col m) = ".").
  { subst ep. unfold ceq. intros H.
    apply andb_true_iff in H as [H H3]. apply andb_true_iff in H as [H1 H2].
    apply Ascii.eqb_eq in H1, H3. apply negb_true_iff, Z.eqb_neq in H2. done. }
  destruct (ceq (mv_promote_to m) NUL); cbn [negb]; split_and!.
  all: try (rewrite bget_bset_eq;
              [done | board_wf_tac | apply in_grid_spec; lia]).
  all: try (intros Hne; rewrite bget_bset_ne by (intros E; by apply Hne);
            rewrite bget_bset_eq;
              [done | done | apply in_grid_spec; lia]).
  all: try (intros r c H1 H2 H3;
            rewrite !bget_bset_ne by (intros E; first [by apply H1 | by apply H2]);
            destruct ep; [by rewrite bget_bset_ne by (intros E; by apply H3)|done]).
  all: intros Hnot r c H1 H2;
    rewrite !bget_bset_ne by (intros E; first [by apply H1 | by apply H2]);
    destruct ep; [by destruct Hnot; apply Hep|done].
Qed.

(** A capture: the bishop on c4 takes the pawn on f7. *)
Lemma apply_move_cells_witness :
  let b := fen_board (parse_fen "rnbqkbnr/pppp1ppp/8/4p3/2B1P3/8/PPPP1PPP/RNBQK1NR w") in
  let b' := (apply_move b "Bxf7+" "w").2 in
  bget b 1 5 = "p" ∧ bget b' 1 5 = "B" ∧ bget b' 4 2 = "."
  ∧ bget b' 0 4 = bget b 0 4.
Proof.
  intros b b'. split; [reflexivity|].
  assert (Hwf : board_wf b) by apply parse_fen_wf.
  pose proof (apply_move_cells b "Bxf7+" "w"
                (MoveFields "B" NUL 1 5 (-1) (-1)) 4 2 Hwf eq_refl eq_refl)
    as (_ & H1 & H2 & H3 & _).
  split_and!.
  - exact H1.
  - apply H2. discriminate.
  - apply H3; discriminate.
Defined.

(** ** The movement rules *)

Lemma knight_offsets b piece dest_row dest_col r c :
  toupper piece = "N" →
  reaches b piece dest_row dest_col r c = true
  ↔ (Z.abs (r - dest_row) = 1 ∧ Z.abs (c - dest_col) = 2)
    ∨ (Z.abs (r - dest_row) = 2 ∧ Z.abs (c - dest_col) = 1).
Proof.
  intros H. unfold reaches. rewrite H. cbn.
  rewrite orb_false_r, !orb_true_iff, !andb_true_iff, !Z.eqb_eq. lia.
Qed.

(** X11.  The knight's rule: the source reaches the destination exactly when
    the two squares are one row and two columns, or two rows and one column,
    apart; the content of the board plays no part. *)
Theorem reaches_knight b piece dest_row dest_col r c :
  toupper piece = "N" →
  reaches b piece dest_row dest_col r c = true
  ↔ (Z.abs (r - dest_row) = 1 ∧ Z.abs (c - dest_col) = 2)
    ∨ (Z.abs (r - dest_row) = 2 ∧ Z.abs (c - dest_col) = 1).
Proof. apply knight_offsets. Qed.

Lemma reaches_knight_witness :
  reaches empty_board "n" 5 5 7 6 = true
  ↔ (Z.abs (7 - 5) = 1 ∧ Z.abs (6 - 5) = 2)
    ∨ (Z.abs (7 - 5) = 2 ∧ Z.abs (6 - 5) = 1).
Proof. exact (reaches_knight empty_board "n" 5 5 7 6 eq_refl). Defined.

(** The sliding loop entered [k0] steps away from [(r, c)]: it finds the
    destination exactly when the destination is some [k] steps away, within
    the iterations allowed, every square passed is on the board and the
    squares before the destination are empty. *)
Lemma slide_ray fuel b dest_row dest_col dr dc r c k0 :
  slide fuel b dest_row dest_col dr dc (r + k0 * dr) (c + k0 * dc) = true
  ↔ ∃ k, k0 ≤ k < k0 + Z.of_nat fuel
         ∧ dest_row = r + k * dr ∧ dest_col = c + k * dc
         ∧ (∀ j, k0 ≤ j ≤ k → in_grid (r + j * dr) (c + j * dc) = true)
         ∧ (∀ j, k0 ≤ j < k → bget b (r + j * dr) (c + j * dc) = ".").
Proof.
  revert k0. induction fuel as [|fuel IH]; intros k0; cbn [slide].
  { split; [done|]. intros (k & Hk & _). lia. }
  fold (in_grid (r + k0 * dr) (c + k0 * dc)).
  destruct (in_grid (r + k0 * dr) (c + k0 * dc)) eqn:Hin.
  2: { split; [done|]. intros (k & Hk & _ & _ & Hgrid & _).
       rewrite Hgrid in Hin by lia. done. }
  destruct ((r + k0 * dr =? dest_row) && (c + k0 * dc =? dest_col)) eqn:Hd.
  { apply andb_true_iff in Hd as [H1 H2].
    apply Z.eqb_eq in H1, H2.
    split; [|done]. intros _. exists k0. split_and!; [lia..| |].
    - intros j Hj. by replace j with k0 by lia.
    - intros j Hj. lia. }
  unfold ceq.
  destruct (Ascii.eqb_spec (bget b (r + k0 * dr) (c + k0 * dc)) ".")
    as [Hempty|Hocc]; cbn [negb].
  - replace (r + k0 * dr + dr) with (r + (k0 + 1) * dr) by lia.
    replace (c + k0 * dc + dc) with (c + (k0 + 1) * dc) by lia.
    rewrite IH. split.
    + intros (k & Hk & Hr & Hc & Hgrid & Hclear).
      exists k. split_and!; [lia..| |].
      * intros j Hj. destruct (decide (j = k0)) as [->|]; [done|].
        apply Hgrid. lia.
      * intros j Hj. destruct (decide (j = k0)) as [->|]; [done|].
        apply Hclear. lia.
    + intros (k & Hk & Hr & Hc & Hgrid & Hclear).
      assert (k ≠ k0).
      { intros ->. apply andb_false_iff in Hd as [Hd|Hd];
          apply Z.eqb_neq in Hd; lia. }
      exists k. split_and!; [lia..| |].
      * intros j Hj. apply Hgrid. lia.
      * intros j Hj. apply Hclear. lia.
  - split; [done|]. intros (k & Hk & Hr & Hc & Hgrid & Hclear).
    assert (k ≠ k0).
    { intros ->. apply andb_false_iff in Hd as [Hd|Hd];
        apply Z.eqb_neq in Hd; lia. }
    destruct Hocc. apply Hclear. lia.
Qed.

(** One direction of a sliding piece, between two squares of the board. *)
Lemma slide_dir b dest_row dest_col dr dc r c :
  (dr, dc) ≠ (0, 0) → -1 ≤ dr ≤ 1 → -1 ≤ dc ≤ 1 →
  0 ≤ r < 8 → 0 ≤ c < 8 → 0 ≤ dest_row < 8 → 0 ≤ dest_col < 8 →
  slide 8 b dest_row dest_col dr dc (r + dr) (c + dc) = true
  ↔ dr = Z.sgn (dest_row - r) ∧ dc = Z.sgn (dest_col - c)
    ∧ (dr = 0 ∨ dc = 0 ∨ Z.abs (dest_row - r) = Z.abs (dest_col - c))
    ∧ path_clear b r c dest_row dest_col.
Proof.
  intros Hd Hdr Hdc Hr Hc Hr' Hc'.
  pose proof (slide_ray 8 b dest_row dest_col dr dc r c 1) as Hray.
  rewrite !Z.mul_1_l in Hray. rewrite Hray. clear Hray.
  unfold path_clear, chebyshev.
  assert (Hcases : (dr = -1 ∨ dr = 0 ∨ dr = 1) ∧ (dc = -1 ∨ dc = 0 ∨ dc = 1))
    by lia.
  split.
  - intros (k & Hk & Hkr & Hkc & Hgrid & Hclear).
    assert (Hsr : Z.sgn (dest_row - r) = dr)
      by (destruct Hcases as [ [-> | [-> | ->] ] _ ]; lia).
    assert (Hsc : Z.sgn (dest_col - c) = dc)
      by (destruct Hcases as [ _ [-> | [-> | ->] ] ]; lia).
    split_and!; [done..| |].
    + destruct Hcases as [ [-> | [-> | ->] ] [-> | [-> | ->] ] ]; lia.
    + intros j Hj. rewrite Hsr, Hsc. apply Hclear.
      destruct Hcases as [ [-> | [-> | ->] ] [-> | [-> | ->] ] ]; lia.
  - intros (Hsr & Hsc & Hdiag & Hclear).
    exists (Z.max (Z.abs (r - dest_row)) (Z.abs (c - dest_col))).
    rewrite <- Hsr, <- Hsc in Hclear.
    assert (Hne : dr ≠ 0 ∨ dc ≠ 0).
    { destruct (decide (dr = 0)) as [->|]; [right|by left].
      intros ->. by destruct Hd. }
    split_and!.
    + destruct Hcases as [ [-> | [-> | ->] ] [-> | [-> | ->] ] ]; lia.
    + destruct Hcases as [ [-> | [-> | ->] ] [-> | [-> | ->] ] ]; lia.
    + destruct Hcases as [ [-> | [-> | ->] ] [-> | [-> | ->] ] ]; lia.
    + destruct Hcases as [ [-> | [-> | ->] ] [-> | [-> | ->] ] ]; lia.
    + intros j Hj. apply in_grid_spec.
      destruct Hcases as [ [-> | [-> | ->] ] [-> | [-> | ->] ] ]; lia.
    + intros j Hj. apply Hclear. lia.
Qed.

Lemma pair_neq (r c r' c' : Z) : (r, c) ≠ (r', c') ↔ r ≠ r' ∨ c ≠ c'.
Proof.
  split.
  - intros H. destruct (decide (r = r')) as [->|]; [|by left].
    right. intros ->. done.
  - intros [H|H] [= ? ?]; done.
Qed.

Lemma rook_lines b piece dest_row dest_col r c :
  toupper piece = "R" →
  0 ≤ r < 8 → 0 ≤ c < 8 → 0 ≤ dest_row < 8 → 0 ≤ dest_col < 8 →
  reaches b piece dest_row dest_col r c = true
  ↔ (r = dest_row ∨ c = dest_col) ∧ (r, c) ≠ (dest_row, dest_col)
    ∧ path_clear b r c dest_row dest_col.
Proof.
  intros H Hr Hc Hr' Hc'. unfold reaches. rewrite H. cbv iota.
  unfold slide_dirs. cbn [zip zip_with rdr rdc existsb].
  rewrite orb_false_r, !orb_true_iff.
  rewrite !slide_dir by (done || lia). rewrite pair_neq.
  generalize (path_clear b r c dest_row dest_col). intros P.
  split.
  - intros [H1|[H1|[H1|H1]]]; destruct H1 as (? & ? & _ & ?);
      (split_and!; [lia|lia|done]).
  - intros (Hline & Hne & HP).
    destruct (Z.lt_total r dest_row) as [?|[?|?]],
             (Z.lt_total c dest_col) as [?|[?|?]]; try lia;
    first [ left; by (split_and!; (done || lia))
          | right; left; by (split_and!; (done || lia))
          | right; right; left; by (split_and!; (done || lia))
          | right; right; right; by (split_and!; (done || lia)) ].
Qed.

(** X12.  The rook's rule, between two squares of the board: the source
    reaches the destination exactly when they differ, share a row or a
    column, and every square strictly between them is empty. *)
Theorem reaches_rook b piece dest_row dest_col r c :
  toupper piece = "R" →
  0 ≤ r < 8 → 0 ≤ c < 8 → 0 ≤ dest_row < 8 → 0 ≤ dest_col < 8 →
  reaches b piece dest_row dest_col r c = true
  ↔ (r = dest_row ∨ c = dest_col) ∧ (r, c) ≠ (dest_row, dest_col)
    ∧ path_clear b r c dest_row dest_col.
Proof. apply rook_lines. Qed.

Lemma bishop_lines b piece dest_row dest_col r c :
  toupper piece = "B" →
  0 ≤ r < 8 → 0 ≤ c < 8 → 0 ≤ dest_row < 8 → 0 ≤ dest_col < 8 →
  reaches b piece dest_row dest_col r c = true
  ↔ Z.abs (r - dest_row) = Z.abs (c - dest_col)
    ∧ (r, c) ≠ (dest_row, dest_col)
    ∧ path_clear b r c dest_row dest_col.
Proof.
  intros H Hr Hc Hr' Hc'. unfold reaches. rewrite H. cbv iota.
  unfold slide_dirs. cbn [bishop_dirs existsb].
  rewrite orb_false_r, !orb_true_iff.
  rewrite !slide_dir by (done || lia). rewrite pair_neq.
  generalize (path_clear b r c dest_row dest_col). intros P.
  split.
  - intros [H1|[H1|[H1|H1]]]; destruct H1 as (? & ? & ? & ?);
      (split_and!; [lia|lia|done]).
  - intros (Hdiag & Hne & HP).
    destruct (Z.lt_total r dest_row) as [?|[?|?]],
             (Z.lt_total c dest_col) as [?|[?|?]]; try lia;
    first [ left; by (split_and!; (done || lia))
          | right; left; by (split_and!; (done || lia))
          | right; right; left; by (split_and!; (done || lia))
          | right; right; right; by (split_and!; (done || lia)) ].
Qed.

(** X13.  The bishop's rule, between two squares of the board: the source
    reaches the destination exactly when they differ, lie on a common
    diagonal, and every square strictly between them is empty. *)
Theorem reaches_bishop b piece dest_row dest_col r c :
  toupper piece = "B" →
  0 ≤ r < 8 → 0 ≤ c < 8 → 0 ≤ dest_row < 8 → 0 ≤ dest_col < 8 →
  reaches b piece dest_row dest_col r c = true
  ↔ Z.abs (r - dest_row) = Z.abs (c - dest_col)
    ∧ (r, c) ≠ (dest_row, dest_col)
    ∧ path_clear b r c dest_row dest_col.
Proof. apply bishop_lines. Qed.

Lemma existsb_Permutation {A} (f : A → bool) l1 l2 :
  l1 ≡ₚ l2 → existsb f l1 = existsb f l2.
Proof.
  induction 1 as [|x l1 l2 _ IH|x y l|l1 l2 l3 _ IH1 _ IH2]; cbn [existsb].
  - done.
  - by rewrite IH.
  - by destruct (f x), (f y).
  - by rewrite IH1.
Qed.

Lemma queen_lines b dest_row dest_col r c (q rk bp : ascii) :
  toupper q = "Q" → toupper rk = "R" → toupper bp = "B" →
  reaches b q dest_row dest_col r c
  = reaches b rk dest_row dest_col r c || reaches b bp dest_row dest_col r c.
Proof.
  intros Hq Hrk Hbp. unfold reaches. rewrite Hq, Hrk, Hbp. cbv iota.
  unfold slide_dirs. rewrite <- existsb_app.
  apply existsb_Permutation.
  cbn [zip zip_with qdr qdc rdr rdc bishop_dirs app].
  apply (bool_decide_unpack _). by vm_compute.
Qed.

(** X14.  The queen moves as a rook or as a bishop: on every board and for
    every pair of squares, her rule reaches the destination exactly when the
    rook's rule or the bishop's rule does. *)
Theorem reaches_queen b dest_row dest_col r c (q rk bp : ascii) :
  toupper q = "Q" → toupper rk = "R" → toupper bp = "B" →
  reaches b q dest_row dest_col r c
  = reaches b rk dest_row dest_col r c || reaches b bp dest_row dest_col r c.
Proof. apply queen_lines. Qed.

Lemma reaches_queen_witness :
  let b := fen_board (parse_fen "8/8/8/8/8/8/8/3Q4 w") in
  reaches b "Q" 3 7 7 3 = reaches b "R" 3 7 7 3 || reaches b "B" 3 7 7 3.
Proof.
  intros b. exact (reaches_queen b 3 7 7 3 "Q" "R" "B" eq_refl eq_refl eq_refl).
Defined.

Lemma reaches_rook_witness :
  let b := fen_board (parse_fen "8/8/8/8/8/8/8/R3K3 w") in
  reaches b "R" 7 3 7 0 = true
  ↔ (7 = 7 ∨ 0 = 3) ∧ (7, 0) ≠ (7, 3) ∧ path_clear b 7 0 7 3.
Proof.
  intros b.
  exact (reaches_rook b "R" 7 3 7 0 eq_refl ltac:(lia) ltac:(lia)
           ltac:(lia) ltac:(lia)).
Defined.

Lemma reaches_bishop_witness :
  let b := fen_board (parse_fen "8/8/8/8/8/8/8/2B5 w") in
  reaches b "B" 2 7 7 2 = true
  ↔ Z.abs (7 - 2) = Z.abs (2 - 7) ∧ (7, 2) ≠ (2, 7) ∧ path_clear b 7 2 2 7.
Proof.
  intros b.
  exact (reaches_bishop b "B" 2 7 7 2 eq_refl ltac:(lia) ltac:(lia)
           ltac:(lia) ltac:(lia)).
Defined.

Lemma reaches_pawn_shape b piece dest_row dest_col r c :
  toupper piece = "P" →
  reaches b piece dest_row dest_col r c = true →
  let ahead := if isupper piece then r - dest_row else dest_row - r in
  (ahead = 1 ∨ ahead = 2)
  ∧ Z.abs (c - dest_col) ≤ 1
  ∧ (c = dest_col → bget b dest_row dest_col = ".")
  ∧ (ahead = 2 →
     c = dest_col ∧ r = (if isupper piece then 6 else 1)
     ∧ bget b (if isupper piece then 5 else 2) c = ".").
Proof.
  intros HP H. unfold reaches in H. rewrite HP in H. cbv iota in H.
  unfold ceq in H.
  destruct (isupper piece); cbv zeta;
    destruct (Z.eqb_spec c dest_col) as [->|Hc];
    destruct (Ascii.eqb_spec (bget b dest_row dest_col) ".") as [Hd|Hd];
    cbn [andb orb] in H; bool_to_prop H;
    rewrite ?Ascii.eqb_eq in H;
    split_and!; intros; try done; try lia;
    intuition (done || lia).
Qed.

(** X15.  A pawn only moves forward: a White pawn (upper case) reaches
    squares one or two rows up the board, a Black pawn one or two rows down,
    at most one column aside; two rows only from the pawn's home row (row 6
    for White, row 1 for Black), straight ahead, with the square passed and
    the destination both empty. *)
Theorem reaches_pawn_forward b piece dest_row dest_col r c :
  toupper piece = "P" →
  reaches b piece dest_row dest_col r c = true →
  let ahead := if isupper piece then r - dest_row else dest_row - r in
  (ahead = 1 ∨ ahead = 2)
  ∧ Z.abs (c - dest_col) ≤ 1
  ∧ (c = dest_col → bget b dest_row dest_col = ".")
  ∧ (ahead = 2 →
     c = dest_col ∧ r = (if isupper piece then 6 else 1)
     ∧ bget b (if isupper piece then 5 else 2) c = ".").
Proof. apply reaches_pawn_shape. Qed.

Lemma reaches_pawn_forward_witness :
  let b := fen_board
             (parse_fen "rnbqkbnr/pppppppp/8/8/8/8/PPPPPPPP/RNBQKBNR w") in
  (6 - 4 = 1 ∨ 6 - 4 = 2)
  ∧ Z.abs (4 - 4) ≤ 1
  ∧ (4 = 4 → bget b 4 4 = ".")
  ∧ (6 - 4 = 2 → 4 = 4 ∧ 6 = 6 ∧ bget b 5 4 = ".").
Proof.
  intros b. exact (reaches_pawn_forward b "P" 4 4 6 4 eq_refl eq_refl).
Defined.

(** ** The locator against the movement rules *)

Lemma piece_of_char_letter piece cl k :
  piece_of_char piece = Some (cl, k) →
  toupper piece = match k with
                  | Pawn => "P" | Knight => "N" | Bishop => "B"
                  | Rook => "R" | Queen => "Q" | King => "K"
                  end
  ∧ isupper piece = match cl with White => true | Black => false end.
Proof.
  destruct piece as [[] [] [] [] [] [] [] []]; vm_compute; intros H;
    first [discriminate H | injection H as <- <-; by split].
Qed.

Lemma ceq_eq a x : ceq a x = true ↔ a = x.
Proof. unfold ceq. apply Ascii.eqb_eq. Qed.

Lemma if_false_r (x y : bool) : (if x then y else false) = x && y.
Proof. by destruct x. Qed.

(** The pawn's test, for either colour. *)
Lemma reaches_pawn_rule b piece cl dest_row dest_col r c :
  piece_of_char piece = Some (cl, Pawn) →
  reaches b piece dest_row dest_col r c = true
  ↔ pawn_rule b cl r c dest_row dest_col.
Proof.
  intros [Hup Hcl]%piece_of_char_letter. unfold reaches, pawn_rule.
  rewrite Hup, Hcl.
  destruct cl; cbn [ahead starting_rank]; rewrite if_false_r;
    rewrite !orb_true_iff, !andb_true_iff, !orb_true_iff, !andb_true_iff,
      !Z.eqb_eq, !ceq_eq.
  - split.
    + intros [(H1 & [H2|H2])|H1]; [left; split_and!; try tauto..|right; lia].
      destruct H2 as [[-> ->] H2]. right. by split_and!.
    + intros [(-> & He & [H|(-> & <- & H)])|[H1 H2]];
        [left; tauto|left|right; split; [done|lia]].
      split; [done|]. right. by split_and!.
  - split.
    + intros [(H1 & [H2|H2])|H1]; [left; split_and!; try tauto..|right; lia].
      destruct H2 as [[-> ->] H2]. right. by split_and!.
    + intros [(-> & He & [H|(-> & <- & H)])|[H1 H2]];
        [left; tauto|left|right; split; [done|lia]].
      split; [done|]. right. by split_and!.
Qed.

(** The [switch] of [find_piece] against the six rules. *)
Lemma reaches_movement_rule b piece cl k dest_row dest_col r c :
  piece_of_char piece = Some (cl, k) →
  0 ≤ r < 8 → 0 ≤ c < 8 → 0 ≤ dest_row < 8 → 0 ≤ dest_col < 8 →
  reaches b piece dest_row dest_col r c = true
  ↔ movement_rule b cl k r c dest_row dest_col
    ∨ (k = King ∧ (r, c) = (dest_row, dest_col)).
Proof.
  intros Hpc Hr Hc Hdr Hdc.
  pose proof (piece_of_char_letter _ _ _ Hpc) as [Hup _].
  destruct k; cbn [movement_rule].
  - rewrite (reaches_pawn_rule _ _ cl) by done. intuition discriminate.
  - rewrite knight_offsets by done. unfold knight_rule. intuition discriminate.
  - rewrite bishop_lines by done. unfold bishop_rule. intuition discriminate.
  - rewrite rook_lines by done. unfold rook_rule. intuition discriminate.
  - rewrite (queen_lines b dest_row dest_col r c piece "R" "B") by done.
    rewrite orb_true_iff, rook_lines, bishop_lines by done.
    unfold rook_rule, bishop_rule. intuition discriminate.
  - rewrite reaches_king by done. unfold king_rule, chebyshev.
    split.
    + intros H.
      destruct (decide ((r, c) = (dest_row, dest_col))) as [E|E]; [by right|].
      left. assert (r ≠ dest_row ∨ c ≠ dest_col) by
        (destruct (decide (r = dest_row)), (decide (c = dest_col));
         [subst; done|auto..]).
      lia.
    + intros [H|[_ [= -> ->]]]; lia.
Qed.

(** X24.  Between the locator and the movement rules as the specification
    words them, the king standing on the destination is the only
    difference: for a piece letter and a destination on the board,
    [find_piece] returns the first square in row-major order that holds the
    piece, agrees with the hints given and from which the rule of the piece
    reaches the destination or, for a king, which is the destination itself;
    it fails exactly when the board has no such square. *)
Theorem find_piece_movement_rule b piece cl k
    dest_row dest_col src_row_hint src_col_hint :
  piece_of_char piece = Some (cl, k) →
  0 ≤ dest_row < 8 → 0 ≤ dest_col < 8 →
  let ok r c :=
    bget b r c = piece
    ∧ (src_row_hint < 0 ∨ r = src_row_hint)
    ∧ (src_col_hint < 0 ∨ c = src_col_hint)
    ∧ (movement_rule b cl k r c dest_row dest_col
       ∨ (k = King ∧ (r, c) = (dest_row, dest_col))) in
  match find_piece b piece dest_row dest_col src_row_hint src_col_hint with
  | Some (r, c) =>
      (0 ≤ r < 8 ∧ 0 ≤ c < 8) ∧ ok r c
      ∧ ∀ r' c', 0 ≤ r' < 8 → 0 ≤ c' < 8 → before r' c' r c → ¬ ok r' c'
  | None => ∀ r c, 0 ≤ r < 8 → 0 ≤ c < 8 → ¬ ok r c
  end.
Proof.
  intros Hpc Hdr Hdc ok.
  pose proof (find_piece_spec b piece dest_row dest_col
                src_row_hint src_col_hint) as Hs.
  cbv zeta in Hs.
  destruct (find_piece b piece dest_row dest_col src_row_hint src_col_hint)
    as [[r c]|].
  - destruct Hs as ([Hr Hc] & (Hp & Hh1 & Hh2 & Hreach) & Hfirst).
    split; [done|]. split.
    + unfold ok. repeat (split; [done|]).
      by apply (reaches_movement_rule b piece cl k).
    + intros r' c' Hr' Hc' Hb (Hp' & Hh1' & Hh2' & Hrule).
      apply (Hfirst r' c' Hr' Hc' Hb). repeat (split; [done|]).
      by apply (reaches_movement_rule b piece cl k).
  - intros r c Hr Hc (Hp & Hh1 & Hh2 & Hrule).
    apply (Hs r c Hr Hc). repeat (split; [done|]).
    by apply (reaches_movement_rule b piece cl k).
Qed.

Lemma find_piece_movement_rule_witness :
  let b := fen_board (parse_fen "8/8/8/8/8/5N2/8/1N6 w") in
  find_piece b "N" 6 3 (-1) 1 = Some (7, 1)
  ∧ movement_rule b White Knight 7 1 6 3.
Proof.
  intros b.
  pose proof (find_piece_movement_rule b "N" White Knight 6 3 (-1) 1
                eq_refl ltac:(lia) ltac:(lia)) as HN.
  cbv zeta in HN.
  assert (EN : find_piece b "N" 6 3 (-1) 1 = Some (7, 1))
    by (vm_compute; reflexivity).
  rewrite EN in HN.
  destruct HN as (_ & (_ & _ & _ & [Hrule|[Hk _]]) & _); [|discriminate Hk].
  split; [exact EN|exact Hrule].
Defined.

(** ** Which pawn a plain advance moves *)

Lemma find_piece_pawn_left_first b dest_row dest_col :
  0 ≤ dest_row < 7 → 1 ≤ dest_col < 8 →
  bget b (dest_row + 1) (dest_col - 1) = "P" →
  find_piece b "P" dest_row dest_col (-1) (-1)
  = Some (dest_row + 1, dest_col - 1).
Proof.
  intros Hr Hc Hpawn.
  assert (Hreach : reaches b "P" dest_row dest_col (dest_row + 1) (dest_col - 1)
                   = true).
  { unfold reaches. change (toupper "P") with "P". cbv iota.
    change (isupper "P") with true. cbv iota.
    apply orb_true_iff. right. apply andb_true_iff. split.
    - apply Z.eqb_eq. lia.
    - apply orb_true_iff. right. apply Z.eqb_eq. lia. }
  pose proof (find_piece_spec b "P" dest_row dest_col (-1) (-1)) as Hs.
  cbv zeta in Hs.
  destruct (find_piece b "P" dest_row dest_col (-1) (-1)) as [[r c]|].
  2: { exfalso. apply (Hs (dest_row + 1) (dest_col - 1)); [lia..|].
       split_and!; [done|lia|lia|done]. }
  destruct Hs as ([Hr' Hc'] & (Hp & _ & _ & Hreach') & Hfirst).
  destruct (decide ((r, c) = (dest_row + 1, dest_col - 1))) as [->|Hne]; [done|].
  exfalso.
  pose proof (reaches_pawn_shape b "P" dest_row dest_col r c eq_refl Hreach')
    as (Hahead & Hside & _ & Htwo).
  change (isupper "P") with true in Hahead, Htwo. cbv iota zeta in Hahead, Htwo.
  destruct (decide (before (dest_row + 1) (dest_col - 1) r c)) as [Hb|Hb].
  - apply (Hfirst (dest_row + 1) (dest_col - 1)); [lia..|done|].
    split_and!; [done|lia|lia|done].
  - unfold before in Hb. apply pair_neq in Hne. lia.
Qed.

(** X16.  Without hints, a White pawn standing one row below and one column
    to the left of the destination is the source [find_piece] returns,
    whatever else is on the board: no square before it in scan order passes
    the pawn rule, and it passes the diagonal rule itself, which does not
    look at the destination. *)
Theorem find_piece_pawn_left b dest_row dest_col :
  0 ≤ dest_row < 7 → 1 ≤ dest_col < 8 →
  bget b (dest_row + 1) (dest_col - 1) = "P" →
  find_piece b "P" dest_row dest_col (-1) (-1)
  = Some (dest_row + 1, dest_col - 1).
Proof. apply find_piece_pawn_left_first. Qed.

Lemma find_piece_pawn_left_witness :
  let b := fen_board
             (parse_fen "rnbqkbnr/pppppppp/8/8/8/8/PPPPPPPP/RNBQKBNR w") in
  find_piece b "P" 5 1 (-1) (-1) = Some (5 + 1, 1 - 1).
Proof.
  intros b.
  exact (find_piece_pawn_left b 5 1 ltac:(lia) ltac:(lia) eq_refl).
Defined.

(** X17.  Hence a plain White pawn advance (no hint in the token) onto an
    empty square is carried out by the pawn one column to the left of the
    file named, when there is one on the row below: [apply_move] succeeds,
    that pawn leaves its square, the square straight below the destination
    is emptied as for an en-passant capture, and the destination receives
    the pawn (or the promotion letter). *)
Theorem apply_move_pawn_left b move m :
  board_wf b →
  parse_move (c_str (list_ascii_of_string move)) "w" = Some m →
  mv_piece m = "P" → mv_src_row_hint m = -1 → mv_src_col_hint m = -1 →
  mv_dest_row m < 7 → 1 ≤ mv_dest_col m →
  bget b (mv_dest_row m + 1) (mv_dest_col m - 1) = "P" →
  bget b (mv_dest_row m) (mv_dest_col m) = "." →
  let b' := (apply_move b move "w").2 in
  (apply_move b move "w").1 = true
  ∧ bget b' (mv_dest_row m + 1) (mv_dest_col m - 1) = "."
  ∧ bget b' (mv_dest_row m + 1) (mv_dest_col m) = "."
  ∧ bget b' (mv_dest_row m) (mv_dest_col m)
    = (if ceq (mv_promote_to m) NUL then "P" else toupper (mv_promote_to m)).
Proof.
  intros Hwf Hm Hpiece Hrh Hch Hrow Hcol Hpawn Hempty b'. subst b'.
  pose proof (parse_move_dest _ _ _ Hm) as [Hdr Hdc].
  assert (Hf : find_piece b (mv_piece m) (mv_dest_row m) (mv_dest_col m)
                 (mv_src_row_hint m) (mv_src_col_hint m)
               = Some (mv_dest_row m + 1, mv_dest_col m - 1)).
  { rewrite Hpiece, Hrh, Hch. apply find_piece_pawn_left_first; (done || lia). }
  rewrite (apply_move_performed _ _ _ _ _ _ Hm Hf). cbn [fst snd].
  split; [done|].
  pose proof (perform_move_en_passant b "w" m (mv_dest_row m + 1)
                (mv_dest_col m - 1) Hwf) as H.
  rewrite Hpiece in H.
  destruct H as (H1 & H2 & H3 & _); [lia..|done|lia|lia|done|].
  split_and!; [done..|].
  rewrite H3. by destruct (ceq (mv_promote_to m) NUL).
Qed.

(** From the initial position "b3" moves the a-pawn and removes the
    b-pawn. *)
Lemma apply_move_pawn_left_witness :
  let b := fen_board
             (parse_fen "rnbqkbnr/pppppppp/8/8/8/8/PPPPPPPP/RNBQKBNR w") in
  let b' := (apply_move b "b3" "w").2 in
  bget b 6 1 = "P"
  ∧ bget b' 6 0 = "." ∧ bget b' 6 1 = "." ∧ bget b' 5 1 = "P".
Proof.
  intros b b'. split; [reflexivity|].
  assert (Hwf : board_wf b) by apply parse_fen_wf.
  pose proof (apply_move_pawn_left b "b3" (MoveFields "P" NUL 5 1 (-1) (-1))
                Hwf eq_refl eq_refl eq_refl eq_refl
                ltac:(simpl; lia) ltac:(simpl; lia) eq_refl eq_refl)
    as (_ & H1 & H2 & H3).
  exact (conj H1 (conj H2 H3)).
Defined.

(** ** The index returned *)

(** X18.  [choose_move] always returns a usable index: it is never negative,
    never above 255, and below the number of tokens as soon as the move list
    has one. *)
Theorem choose_move_index fen moves timeout :
  let k := choose_move fen moves timeout in
  0 ≤ k ≤ 255
  ∧ (move_list moves ≠ [] → k < Z.of_nat (length (move_list moves))).
Proof.
  intros k. subst k. unfold choose_move.
  assert (Hlen : (length (move_list moves) ≤ 256)%nat).
  { unfold move_list. rewrite length_take. unfold MAX_MOVES. lia. }
  destruct (select_move_spec (fen_board (parse_fen fen))
              (fen_side (parse_fen fen)) (move_list moves))
    as [[-> _]|(j & tok & s & Hj & -> & _)].
  - split; [lia|]. destruct (move_list moves); [done|]. simpl. lia.
  - apply lookup_lt_Some in Hj. lia.
Qed.

Lemma choose_loop_failing b side extra i best_idx best_score :
  Forall (λ tok, (apply_move b tok side).1 = false) extra →
  choose_loop b side extra i best_idx best_score = best_idx.
Proof.
  intros H. revert i. induction H as [|tok extra Htok _ IH]; intros i; [done|].
  rewrite choose_loop_cons. unfold token_score. rewrite Htok. apply IH.
Qed.

Lemma choose_loop_app_failing b side toks extra i best_idx best_score :
  Forall (λ tok, (apply_move b tok side).1 = false) extra →
  choose_loop b side (toks ++ extra) i best_idx best_score
  = choose_loop b side toks i best_idx best_score.
Proof.
  intros H. revert i best_idx best_score.
  induction toks as [|tok toks IH]; intros i best_idx best_score.
  - by apply choose_loop_failing.
  - cbn [app]. rewrite !choose_loop_cons.
    destruct (token_score b side tok) as [s|]; [|apply IH].
    destruct (better side s best_score); apply IH.
Qed.

(** X19.  Tokens that cannot be applied, added at the end of the list, do
    not change the selection. *)
Theorem select_move_app_failing b side toks extra :
  Forall (λ tok, (apply_move b tok side).1 = false) extra →
  select_move b side (toks ++ extra) = select_move b side toks.
Proof.
  intros H. unfold select_move. destruct toks as [|tok toks].
  - cbn [app length]. destruct extra as [|tok extra]; [done|].
    cbn [length]. by rewrite choose_loop_failing.
  - cbn [app length].
    assert (∀ n : nat, (Z.of_nat (S n) =? 0) = false) as Hz
      by (intros n; apply Z.eqb_neq; lia).
    rewrite !Hz. change (tok :: toks ++ extra) with ((tok :: toks) ++ extra).
    by apply choose_loop_app_failing.
Qed.

Lemma select_move_app_failing_witness :
  let b := fen_board
             (parse_fen "rnbqkbnr/pppppppp/8/8/8/8/PPPPPPPP/RNBQKBNR w") in
  select_move b "w" (["a3"; "a4"]%string ++ ["Qh9"; "zz"; "e5"]%string)
  = select_move b "w" ["a3"; "a4"]%string.
Proof.
  intros b. apply (select_move_app_failing b "w").
  repeat constructor.
Defined.

(** ** The evaluation after a move *)

Lemma cell_score_empty r c : cell_score r c "." = 0.
Proof. reflexivity. Qed.

(** X20.  What a move that is not castling does to the evaluation, when the
    source found is not the destination itself: the score loses the cell
    score of the moving piece on its source and of whatever stood on the
    destination (and, for a pawn changing file onto an empty square, of
    whatever stood beside the source on the destination's column), and gains
    the cell score on the destination of the piece placed there. *)
Theorem evaluate_after_move b move side m src_row src_col :
  board_wf b →
  parse_move (c_str (list_ascii_of_string move)) side = Some m →
  find_piece b (mv_piece m) (mv_dest_row m) (mv_dest_col m)
             (mv_src_row_hint m) (mv_src_col_hint m)
    = Some (src_row, src_col) →
  (src_row, src_col) ≠ (mv_dest_row m, mv_dest_col m) →
  let placed := if ceq (mv_promote_to m) NUL then mv_piece m
                else if ceq side "w" then toupper (mv_promote_to m)
                else tolower (mv_promote_to m) in
  let beside := if ceq (toupper (mv_piece m)) "P"
                   && negb (src_col =? mv_dest_col m)
                   && ceq (bget b (mv_dest_row m) (mv_dest_col m)) "."
                then cell_score src_row (mv_dest_col m)
                                (bget b src_row (mv_dest_col m))
                else 0 in
  evaluate (apply_move b move side).2
  = evaluate b
    - cell_score src_row src_col (mv_piece m)
    - cell_score (mv_dest_row m) (mv_dest_col m)
                 (bget b (mv_dest_row m) (mv_dest_col m))
    - beside
    + cell_score (mv_dest_row m) (mv_dest_col m) placed.
Proof.
  intros Hwf Hm Hf Hne placed beside.
  rewrite (apply_move_performed _ _ _ _ _ _ Hm Hf). cbn [snd].
  pose proof (parse_move_dest _ _ _ Hm) as [Hdr Hdc].
  apply find_piece_Some in Hf as ([Hsr Hsc] & Hpiece & _ & _ & Hreach).
  unfold perform_move. subst beside.
  set (ep := ceq (toupper (mv_piece m)) "P" && negb (src_col =? mv_dest_col m)
             && ceq (bget b (mv_dest_row m) (mv_dest_col m)) ".").
  set (b1 := if ep then bset b src_row (mv_dest_col m) "." else b).
  assert (Hwf1 : board_wf b1) by (subst b1; destruct ep; board_wf_tac).
  assert (Hb1 : evaluate b1
                = evaluate b - (if ep then cell_score src_row (mv_dest_col m)
                                             (bget b src_row (mv_dest_col m))
                                else 0)).
  { subst b1. destruct ep; [|lia].
    rewrite evaluate_write, cell_score_empty by done. lia. }
  assert (Hsrc1 : bget b1 src_row src_col = mv_piece m).
  { subst b1. destruct ep eqn:E; [|done].
    rewrite bget_bset_ne; [done|]. intros [= Hc].
    subst ep. apply andb_true_iff in E as [E _].
    apply andb_true_iff in E as [_ E].
    apply negb_true_iff, Z.eqb_neq in E. done. }
  assert (Hdest1 : bget b1 (mv_dest_row m) (mv_dest_col m)
                   = bget b (mv_dest_row m) (mv_dest_col m)).
  { subst b1. destruct ep eqn:E; [|done].
    rewrite bget_bset_ne; [done|]. intros [= Hr].
    subst ep. apply andb_true_iff in E as [E _].
    apply andb_true_iff in E as [E1 E2]. unfold ceq in E1.
    apply Ascii.eqb_eq in E1. apply negb_true_iff, Z.eqb_neq in E2.
    pose proof (reaches_pawn_capture _ _ _ _ _ _ E1 Hreach E2). lia. }
  assert (Hgoal : ∀ x,
    evaluate (bset (bset b1 src_row src_col ".")
                   (mv_dest_row m) (mv_dest_col m) x)
    = evaluate b1 - cell_score src_row src_col (mv_piece m)
      - cell_score (mv_dest_row m) (mv_dest_col m)
                   (bget b (mv_dest_row m) (mv_dest_col m))
      + cell_score (mv_dest_row m) (mv_dest_col m) x).
  { intros x. rewrite evaluate_write by (done || board_wf_tac).
    rewrite bget_bset_ne by done. rewrite Hdest1.
    rewrite evaluate_write, cell_score_empty, Hsrc1 by done. lia. }
  subst placed.
  destruct (ceq (mv_promote_to m) NUL); cbn [negb]; rewrite Hgoal, Hb1; lia.
Qed.

(** The bishop takes the pawn on f7: the score moves by the pawn's 100 plus
    the 5 of its advancement, and by the bishop's loss of 10 in centre
    bonus. *)
Lemma evaluate_after_move_witness :
  let b := fen_board (parse_fen "rnbqkbnr/pppp1ppp/8/4p3/2B1P3/8/PPPP1PPP/RNBQK1NR w") in
  evaluate (apply_move b "Bxf7+" "w").2 = evaluate b - 340 - (-105) - 0 + 330.
Proof.
  intros b.
  exact (evaluate_after_move b "Bxf7+" "w" (MoveFields "B" NUL 1 5 (-1) (-1))
           4 2 (parse_fen_wf _) eq_refl eq_refl ltac:(discriminate)).
Defined.

Lemma cell_score_king r c side :
  cell_score r c (if ceq side "w" then "K" else "k")
  = if ceq side "w" then 20000 else -20000.
Proof. by destruct (ceq side "w"). Qed.

Lemma cell_score_rook r c side :
  cell_score r c (if ceq side "w" then "R" else "r")
  = if ceq side "w" then 500 else -500.
Proof. by destruct (ceq side "w"). Qed.

Lemma evaluate_castle b side rook_from king_to rook_to :
  board_wf b →
  0 ≤ rook_from < 8 → 0 ≤ king_to < 8 → 0 ≤ rook_to < 8 →
  rook_from ≠ 4 → king_to ≠ 4 → rook_to ≠ 4 →
  rook_from ≠ king_to → rook_from ≠ rook_to → king_to ≠ rook_to →
  let row := if ceq side "w" then 7 else 0 in
  bget b row 4 = (if ceq side "w" then "K" else "k") →
  bget b row rook_from = (if ceq side "w" then "R" else "r") →
  bget b row king_to = "." → bget b row rook_to = "." →
  evaluate (castle b side rook_from king_to rook_to) = evaluate b.
Proof.
  intros Hwf ? ? ? ? ? ? ? ? ? row HK HR H1 H2. unfold castle. fold row.
  assert (Hrow : 0 ≤ row < 8) by (subst row; destruct (ceq side "w"); lia).
  rewrite !evaluate_write by (first [board_wf_tac | lia]).
  grid_simpl. rewrite HK, HR, H1, H2.
  rewrite !cell_score_king, !cell_score_rook, !cell_score_empty. lia.
Qed.

(** X21.  Castling from the usual squares (king on file e, rook on file h or
    a of the side's back rank, the two squares they go to empty) leaves the
    evaluation unchanged: neither piece has a positional term. *)
Theorem evaluate_castling b move side :
  board_wf b →
  let short := bool_decide (move ∈ ["O-O"; "O-O+"; "O-O#"]%string) in
  let long := bool_decide (move ∈ ["O-O-O"; "O-O-O+"; "O-O-O#"]%string) in
  short || long = true →
  let row := if ceq side "w" then 7 else 0 in
  bget b row 4 = (if ceq side "w" then "K" else "k") →
  bget b row (if short then 7 else 0) = (if ceq side "w" then "R" else "r") →
  bget b row (if short then 6 else 2) = "." →
  bget b row (if short then 5 else 3) = "." →
  evaluate (apply_move b move side).2 = evaluate b.
Proof.
  intros Hwf short long Hc row HK HR H1 H2. subst short long.
  case_bool_decide as Hs.
  - rewrite (apply_move_castle_short _ _ _ Hs). cbn [snd].
    apply evaluate_castle; (done || lia).
  - case_bool_decide as Hl; [|done].
    rewrite (apply_move_castle_long _ _ _ Hl). cbn [snd].
    apply evaluate_castle; (done || lia).
Qed.

Lemma evaluate_castling_witness :
  let b := fen_board (parse_fen "r3k2r/8/8/8/8/8/8/R3K2R b") in
  evaluate (apply_move b "O-O-O" "b").2 = evaluate b.
Proof.
  intros b.
  exact (evaluate_castling b "O-O-O" "b" (parse_fen_wf _) eq_refl
           eq_refl eq_refl eq_refl eq_refl).
Defined.

(** ** Promotion suffix and capture marker *)

Lemma parse_move_unfold tok side :
  parse_move tok side
  = let buf := strncpy (MAX_MOVE_LEN - 1) tok in
    let buf := strip_check (length buf) buf in
    let len := strlen buf in
    if (len >=? 4) && ceq (char_at buf (len - 2)) "=" then
      parse_fields (char_at buf (len - 1)) (take (Z.to_nat (len - 2)) buf) side
    else parse_fields NUL buf side.
Proof.
  unfold parse_move, parse_fields. cbv zeta.
  set (buf := strip_check _ _).
  destruct (Z.geb_spec (strlen buf) 4) as [Hlen|Hlen]; cbn [andb]; [|done].
  destruct (ceq (char_at buf (strlen buf - 2)) "="); [|done].
  assert (strlen (take (Z.to_nat (strlen buf - 2)) buf) = strlen buf - 2) as ->.
  { unfold strlen in *. rewrite length_take. lia. }
  done.
Qed.

Lemma strip_check_clean fuel buf :
  ceq (char_at buf (strlen buf - 1)) "+"
  || ceq (char_at buf (strlen buf - 1)) "#" = false →
  strip_check fuel buf = buf.
Proof.
  intros H. destruct fuel as [|fuel]; [done|]. cbn [strip_check].
  by rewrite H, andb_false_r.
Qed.

Lemma char_at_last l x : char_at (l ++ [x]) (strlen (l ++ [x]) - 1) = x.
Proof.
  unfold char_at, strlen. rewrite length_app. cbn [length].
  assert ((Z.of_nat (length l + 1) - 1 <? 0) = false) as ->
    by (apply Z.ltb_ge; lia).
  replace (Z.to_nat (Z.of_nat (length l + 1) - 1)) with (length l) by lia.
  by rewrite app_nth2, Nat.sub_diag by lia.
Qed.

Lemma char_at_app_l l k i :
  0 ≤ i < strlen l → char_at (l ++ k) i = char_at l i.
Proof.
  unfold char_at, strlen. intros Hi.
  assert ((i <? 0) = false) as -> by (apply Z.ltb_ge; lia).
  apply app_nth1. lia.
Qed.

Lemma parse_fields_promotion x buf side :
  parse_fields x buf side = with_promotion x <$> parse_fields NUL buf side.
Proof.
  unfold parse_fields. cbv zeta.
  destruct (_ && _ && _); cbv iota beta;
    (destruct (_ <? 2); [done|]);
    (destruct (_ || _ || _ || _); [done|]);
    by destruct (parse_hints _).
Qed.

(** X22.  A promotion suffix changes nothing but the promotion letter: a
    token followed by "=X" is read as the token itself with promotion letter
    [X], provided the token is free of NULs, has between 2 and 13 bytes,
    carries no suffix of its own and [X] is not '+', '#' or NUL. *)
Theorem parse_move_promotion tok x side :
  Forall (λ ch, ch ≠ NUL) tok → (2 ≤ length tok ≤ 13)%nat →
  x ≠ NUL → x ≠ "+" → x ≠ "#" →
  ceq (char_at tok (strlen tok - 1)) "+"
  || ceq (char_at tok (strlen tok - 1)) "#" = false →
  ceq (char_at tok (strlen tok - 2)) "=" = false →
  parse_move (tok ++ ["="; x]) side
  = with_promotion x <$> parse_move tok side.
Proof.
  intros Hnul Hlen Hx0 Hx1 Hx2 Hsuffix Heq.
  rewrite !parse_move_unfold. cbv zeta. unfold strncpy.
  assert (Hnul' : Forall (λ ch, ch ≠ NUL) (tok ++ ["="; x])).
  { apply Forall_app. split; [done|]. by repeat constructor. }
  rewrite !c_str_id by done.
  rewrite (take_ge (tok ++ ["="; x]))
    by (rewrite length_app; unfold MAX_MOVE_LEN; simpl; lia).
  rewrite (take_ge tok) by (unfold MAX_MOVE_LEN; simpl; lia).
  assert (Hlast : char_at (tok ++ ["="; x]) (strlen (tok ++ ["="; x]) - 1) = x).
  { change (tok ++ ["="; x]) with (tok ++ [ "=" ] ++ [x]).
    rewrite app_assoc. apply char_at_last. }
  rewrite (strip_check_clean _ (tok ++ ["="; x])).
  2: { rewrite Hlast. unfold ceq.
       destruct (Ascii.eqb_spec x "+"), (Ascii.eqb_spec x "#"); done. }
  rewrite (strip_check_clean _ tok) by done.
  rewrite Hlast.
  assert (Hlen2 : strlen (tok ++ ["="; x]) = strlen tok + 2).
  { unfold strlen. rewrite length_app. simpl. lia. }
  rewrite Hlen2.
  assert ((strlen tok + 2 >=? 4) = true) as ->.
  { rewrite Z.geb_leb. apply Z.leb_le. unfold strlen. lia. }
  replace (strlen tok + 2 - 2) with (strlen tok) by lia.
  assert (char_at (tok ++ ["="; x]) (strlen tok) = "=") as ->.
  { unfold char_at, strlen.
    assert ((Z.of_nat (length tok) <? 0) = false) as ->
      by (apply Z.ltb_ge; lia).
    by rewrite Nat2Z.id, app_nth2, Nat.sub_diag by lia. }
  change (ceq "=" "=") with true. cbn [andb].
  unfold strlen at 1. rewrite Nat2Z.id, take_app_length.
  rewrite Heq, andb_false_r.
  apply parse_fields_promotion.
Qed.

Lemma parse_move_promotion_witness :
  parse_move (list_ascii_of_string "exd8" ++ ["="; "Q"]) "w"
  = with_promotion "Q" <$> parse_move (list_ascii_of_string "exd8") "w".
Proof.
  apply parse_move_promotion;
    first [ by repeat constructor | simpl; lia | done ].
Defined.

Lemma parse_hints_marker l : parse_hints (l ++ ["x"]) = parse_hints l.
Proof.
  unfold parse_hints. rewrite foldl_app. cbn [foldl].
  by destruct (foldl _ _ l).
Qed.

Lemma char_at_dest pre (d1 d2 : ascii) :
  char_at (pre ++ [d1; d2]) (strlen (pre ++ [d1; d2]) - 2) = d1
  ∧ char_at (pre ++ [d1; d2]) (strlen (pre ++ [d1; d2]) - 1) = d2.
Proof.
  split.
  - unfold char_at, strlen. rewrite length_app. cbn [length].
    assert ((Z.of_nat (length pre + 2) - 2 <? 0) = false) as ->
      by (apply Z.ltb_ge; lia).
    replace (Z.to_nat (Z.of_nat (length pre + 2) - 2)) with (length pre) by lia.
    by rewrite app_nth2, Nat.sub_diag by lia.
  - change (pre ++ [d1; d2]) with (pre ++ [d1] ++ [d2]).
    rewrite app_assoc. apply char_at_last.
Qed.

Lemma parse_fields_marker pre d1 d2 side :
  pre ≠ [] →
  parse_fields NUL (pre ++ "x" :: [d1; d2]) side
  = parse_fields NUL (pre ++ [d1; d2]) side.
Proof.
  intros Hpre. unfold parse_fields. cbv zeta.
  change (pre ++ "x" :: [d1; d2]) with (pre ++ ["x"] ++ [d1; d2]).
  rewrite (app_assoc pre ["x"]).
  destruct (char_at_dest (pre ++ ["x"]) d1 d2) as [-> ->].
  destruct (char_at_dest pre d1 d2) as [-> ->].
  assert (Hderef : deref ((pre ++ ["x"]) ++ [d1; d2]) = deref (pre ++ [d1; d2])).
  { by destruct pre. }
  rewrite Hderef.
  assert (Hl1 : strlen ((pre ++ ["x"]) ++ [d1; d2]) = Z.of_nat (length pre) + 3).
  { unfold strlen. rewrite !length_app. simpl. lia. }
  assert (Hl2 : strlen (pre ++ [d1; d2]) = Z.of_nat (length pre) + 2).
  { unfold strlen. rewrite !length_app. simpl. lia. }
  rewrite Hl1, Hl2.
  replace (Z.to_nat (Z.of_nat (length pre) + 3 - 2)) with (length (pre ++ ["x"]))
    by (rewrite length_app; simpl; lia).
  replace (Z.to_nat (Z.of_nat (length pre) + 2 - 2)) with (length pre) by lia.
  rewrite !take_app_length.
  assert (Hpos : (1 ≤ length pre)%nat) by (destruct pre; [done|simpl; lia]).
  destruct (_ && _ && _); cbv iota beta.
  - assert ((Z.of_nat (length pre) + 3 - 1 <? 2) = false) as ->
      by (apply Z.ltb_ge; lia).
    assert ((Z.of_nat (length pre) + 2 - 1 <? 2) = false) as ->
      by (apply Z.ltb_ge; lia).
    destruct (_ || _ || _ || _); [done|].
    rewrite drop_app_le by lia.
    by rewrite (parse_hints_marker (drop 1 pre)).
  - assert ((Z.of_nat (length pre) + 3 <? 2) = false) as ->
      by (apply Z.ltb_ge; lia).
    assert ((Z.of_nat (length pre) + 2 <? 2) = false) as ->
      by (apply Z.ltb_ge; lia).
    destruct (_ || _ || _ || _); [done|].
    rewrite !drop_0. by rewrite (parse_hints_marker pre).
Qed.

Lemma not_castle_by_last t z :
  Forall (λ ch, ch ≠ NUL) (t ++ [z]) → z ≠ "O" → z ≠ "+" → z ≠ "#" →
  is_castle_short (t ++ [z]) = false ∧ is_castle_long (t ++ [z]) = false.
Proof.
  intros Hnul H1 H2 H3. unfold is_castle_short, is_castle_long, streq.
  rewrite c_str_id by done.
  split; repeat (apply orb_false_iff; split);
    apply bool_decide_eq_false; intros E;
    apply (f_equal last) in E; rewrite last_snoc in E;
    vm_compute in E; congruence.
Qed.

Lemma parse_move_marker pre d1 d2 side :
  pre ≠ [] → Forall (λ ch, ch ≠ NUL) pre → (length pre ≤ 11)%nat →
  d1 ≠ NUL → d1 ≠ "=" → d2 ≠ NUL → d2 ≠ "+" → d2 ≠ "#" →
  parse_move (pre ++ "x" :: [d1; d2]) side = parse_move (pre ++ [d1; d2]) side.
Proof.
  intros Hpre Hnul Hlen Hd1 Hd1' Hd2 Hd2' Hd2''.
  rewrite !parse_move_unfold. cbv zeta. unfold strncpy.
  assert (Hn1 : Forall (λ ch, ch ≠ NUL) (pre ++ "x" :: [d1; d2])).
  { apply Forall_app. split; [done|]. by repeat constructor. }
  assert (Hn2 : Forall (λ ch, ch ≠ NUL) (pre ++ [d1; d2])).
  { apply Forall_app. split; [done|]. by repeat constructor. }
  rewrite !c_str_id by done.
  rewrite (take_ge (pre ++ "x" :: [d1; d2]))
    by (rewrite length_app; unfold MAX_MOVE_LEN; simpl; lia).
  rewrite (take_ge (pre ++ [d1; d2]))
    by (rewrite length_app; unfold MAX_MOVE_LEN; simpl; lia).
  change (pre ++ "x" :: [d1; d2]) with (pre ++ ["x"] ++ [d1; d2]).
  rewrite (app_assoc pre ["x"]).
  destruct (char_at_dest (pre ++ ["x"]) d1 d2) as [E1 E2].
  destruct (char_at_dest pre d1 d2) as [E3 E4].
  assert (Hclean : ceq d2 "+" || ceq d2 "#" = false).
  { unfold ceq. by destruct (Ascii.eqb_spec d2 "+"), (Ascii.eqb_spec d2 "#"). }
  rewrite (strip_check_clean _ ((pre ++ ["x"]) ++ [d1; d2]))
    by (by rewrite E2).
  rewrite (strip_check_clean _ (pre ++ [d1; d2])) by (by rewrite E4).
  rewrite E1, E3.
  assert (ceq d1 "=" = false) as ->.
  { unfold ceq. by destruct (Ascii.eqb_spec d1 "="). }
  rewrite !andb_false_r.
  rewrite <- (app_assoc pre ["x"]). by apply parse_fields_marker.
Qed.

(** X23.  The capture marker carries no information: with an 'x' inserted in
    front of the destination square, a token (non-empty before the
    destination, free of NULs, at most 14 bytes with the marker, ending in a
    file letter and a rank digit) is applied exactly as without it. *)
Theorem apply_move_capture_marker b (pre : string) (d1 d2 : ascii) side :
  pre ≠ ""%string →
  Forall (λ ch, ch ≠ NUL) (list_ascii_of_string pre) →
  (length (list_ascii_of_string pre) ≤ 11)%nat →
  between "a" "h" d1 = true → between "1" "8" d2 = true →
  apply_move b (String.append pre (String "x" (String d1 (String d2 "")))) side
  = apply_move b (String.append pre (String d1 (String d2 ""))) side.
Proof.
  intros Hpre Hnul Hlen Hd1 Hd2.
  assert (Hp : list_ascii_of_string pre ≠ []) by (by destruct pre).
  assert (Hc1 : d1 ≠ NUL ∧ d1 ≠ "=") by (split; intros ->; done).
  assert (Hc2 : d2 ≠ NUL ∧ d2 ≠ "+" ∧ d2 ≠ "#" ∧ d2 ≠ "O")
    by (split_and!; intros ->; done).
  destruct Hc1 as [? ?], Hc2 as (? & ? & ? & ?).
  unfold apply_move. rewrite !list_ascii_of_string_app.
  cbn [list_ascii_of_string]. set (p := list_ascii_of_string pre) in *.
  assert (Hn1 : Forall (λ ch, ch ≠ NUL) (p ++ "x" :: [d1; d2])).
  { apply Forall_app. split; [done|]. by repeat constructor. }
  assert (Hn2 : Forall (λ ch, ch ≠ NUL) (p ++ [d1; d2])).
  { apply Forall_app. split; [done|]. by repeat constructor. }
  rewrite !c_str_id by done. cbv zeta.
  destruct (not_castle_by_last (p ++ ["x"; d1]) d2) as [E1 E2]; [|done..|].
  { by rewrite <- app_assoc. }
  destruct (not_castle_by_last (p ++ [d1]) d2) as [E3 E4]; [|done..|].
  { by rewrite <- app_assoc. }
  rewrite <- !app_assoc in E1, E2, E3, E4. cbn [app] in E1, E2, E3, E4.
  rewrite E1, E2, E3, E4.
  by rewrite parse_move_marker.
Qed.

Lemma apply_move_capture_marker_witness :
  let b := fen_board (parse_fen "rnbqkbnr/pppp1ppp/8/4p3/2B1P3/8/PPPP1PPP/RNBQK1NR w") in
  apply_move b "Bxf7" "w" = apply_move b "Bf7" "w".
Proof.
  intros b. apply (apply_move_capture_marker b "B" "f" "7" "w").
  - discriminate.
  - repeat constructor; discriminate.
  - simpl. lia.
  - reflexivity.
  - reflexivity.
Defined.

(** ** The fields of a token *)

Lemma parse_hints_range mid :
  -1 ≤ (parse_hints mid).1 ≤ 7 ∧ -1 ≤ (parse_hints mid).2 ≤ 7.
Proof.
  unfold parse_hints.
  assert (H : ∀ st : Z * Z, -1 ≤ st.1 ≤ 7 ∧ -1 ≤ st.2 ≤ 7 →
    let st' := foldl (λ '(src_row_hint, src_col_hint) m,
           if ceq m "x" then (src_row_hint, src_col_hint)
           else if between "a" "h" m then (src_row_hint, code m - code "a")
           else if between "1" "8" m then (code "8" - code m, src_col_hint)
           else (src_row_hint, src_col_hint)) st mid in
    -1 ≤ st'.1 ≤ 7 ∧ -1 ≤ st'.2 ≤ 7).
  { induction mid as [|m mid IH]; intros [rh ch] Hst; [done|].
    cbn [foldl]. apply IH.
    destruct (ceq m "x"); [done|].
    destruct (between "a" "h" m) eqn:Ea.
    { unfold between in Ea. change (code "a") with 97 in *.
      change (code "h") with 104 in Ea. bool_to_prop Ea. simpl in *. lia. }
    destruct (between "1" "8" m) eqn:Ed; [|done].
    apply digit_value in Ed. change (code "0") with 48 in Ed.
    change (code "8") with 56. simpl in *. lia. }
  apply (H (-1, -1)). simpl. lia.
Qed.

Lemma parse_fields_Some x buf side m :
  parse_fields x buf side = Some m →
  mv_piece m ∈ list_ascii_of_string
                 (if ceq side "w" then "PNBRQK" else "pnbrqk")
  ∧ (0 ≤ mv_dest_row m < 8 ∧ 0 ≤ mv_dest_col m < 8)
  ∧ (-1 ≤ mv_src_row_hint m ≤ 7 ∧ -1 ≤ mv_src_col_hint m ≤ 7).
Proof.
  unfold parse_fields. cbv zeta. generalize (deref buf). intros p0.
  destruct (isupper p0 && negb (ceq p0 "O")
            && (ceq p0 "N" || ceq p0 "B" || ceq p0 "R" || ceq p0 "Q"
                || ceq p0 "K")) eqn:E; cbv iota beta.
  all: match goal with |- (if ?c then None else _) = _ → _ => destruct c end;
    [intros [=]|].
  all: match goal with |- (if ?c then None else _) = _ → _ =>
         destruct c eqn:Er end; [intros [=]|].
  all: match goal with
       | |- context [parse_hints ?l] =>
           pose proof (parse_hints_range l) as Hh;
           destruct (parse_hints l) as [rh ch]
       end.
  all: intros [= <-]; cbn [mv_piece mv_dest_row mv_dest_col
                           mv_src_row_hint mv_src_col_hint].
  all: repeat (apply orb_false_elim in Er as [Er ?]).
  all: repeat match goal with
       | H : (_ <? _) = false |- _ => apply Z.ltb_ge in H
       | H : (_ >=? _) = false |- _ =>
           rewrite Z.geb_leb in H; apply Z.leb_gt in H
       end.
  all: unfold ROWS, COLS in *.
  all: split; [|split; [lia|exact Hh]].
  - apply andb_true_iff in E as [_ E]. unfold ceq in E.
    repeat (apply orb_true_iff in E as [E|E]);
      apply Ascii.eqb_eq in E; subst p0;
      destruct (ceq side "w"); apply list_elem_of_In; simpl; tauto.
  - destruct (ceq side "w"); apply list_elem_of_In; simpl; tauto.
Qed.

(** X7.  What [apply_move] reads from a token it does not reject: the piece
    searched for is one of the six letters in the case of the side to move
    (upper case for 'w', lower case otherwise), the destination is on the
    board, and each hint is either unknown (-1) or a row or column of the
    board. *)
Theorem parse_move_fields tok side m :
  parse_move tok side = Some m →
  mv_piece m ∈ list_ascii_of_string
                 (if ceq side "w" then "PNBRQK" else "pnbrqk")
  ∧ (0 ≤ mv_dest_row m < 8 ∧ 0 ≤ mv_dest_col m < 8)
  ∧ (-1 ≤ mv_src_row_hint m ≤ 7 ∧ -1 ≤ mv_src_col_hint m ≤ 7).
Proof.
  rewrite parse_move_unfold. cbv zeta.
  destruct (_ && _); apply parse_fields_Some.
Qed.

Lemma parse_move_fields_witness :
  let m := MoveFields "n" NUL 6 3 (-1) 1 in
  mv_piece m ∈ list_ascii_of_string "pnbrqk"
  ∧ (0 ≤ mv_dest_row m < 8 ∧ 0 ≤ mv_dest_col m < 8)
  ∧ (-1 ≤ mv_src_row_hint m ≤ 7 ∧ -1 ≤ mv_src_col_hint m ≤ 7).
Proof.
  exact (parse_move_fields (list_ascii_of_string "Nbd2+") "b"
           (MoveFields "n" NUL 6 3 (-1) 1) eq_refl).
Defined.
